(** * Tickerizer: resolution of company names to tickers

    A shallow embedding of [src/tickerizer.js] and of the loop of its test
    script, and the properties of the name normalizer, the similarity
    metrics, the candidate scorer, the resolver and its two caches.

    Modelling conventions.
    - A JavaScript string is a [string] of code units below 256, the
      range U+0000 to U+00FF; strings with higher code units are outside
      the model.  On this range [\w] and [\b] are those of ASCII, [\s] and
      [trim] add the no-break space U+00A0, [toLowerCase] maps one code
      unit to one, and [toUpperCase] turns U+00DF into [SS].  The
      uppercase forms of U+00B5 and U+00FF lie above the range; the source
      compares uppercased text with ASCII text only, so the two code units
      stand for their own uppercase forms.
    - [null] is [None]; a value that may be [null] has an [option] type.
    - A JavaScript number holding an integer is a [Z]; where the source
      divides, in [FuzzyMatcher.ratio] and for the two word-match ratios,
      the quotient is computed and compared in IEEE 754 binary64 through
      the Standard Library's [SpecFloat].
    - The reference mapping [tickerDict] is the list of its
      [Object.entries], in iteration order.
    - The two module-level [Map]s are an explicit state, threaded through
      every call by a state monad.
    - [console.log] output is not modelled. *)

From Stdlib Require Import ZArith Lia Bool Ascii String List.
From Stdlib Require Import SpecFloat.
From stdpp Require Import gmap strings sorting.
Import ListNotations.

Local Open Scope string_scope.

(** ** Characters *)

Module Char.

Definition code (c : ascii) : nat := nat_of_ascii c.

Definition between (lo hi : nat) (c : ascii) : bool :=
  (lo <=? code c)%nat && (code c <=? hi)%nat.

Definition isUpper : ascii -> bool := between 65 90.
Definition isLower : ascii -> bool := between 97 122.
Definition isDigit : ascii -> bool := between 48 57.

(** The class [\w]: letters, digits and the underscore. *)
Definition isWord (c : ascii) : bool :=
  isUpper c || isLower c || isDigit c || (code c =? 95)%nat.

(** The class [\s], which is also what [trim] strips: tab, line feed,
    vertical tab, form feed, carriage return, space and the no-break
    space U+00A0. *)
Definition isSpace (c : ascii) : bool :=
  between 9 13 c || (code c =? 32)%nat || (code c =? 160)%nat.

(** The letters U+00C0 to U+00DE, which have a lowercase form 32 above;
    U+00D7 is the multiplication sign. *)
Definition isLatinUpper (c : ascii) : bool :=
  between 192 222 c && negb (code c =? 215)%nat.

(** The letters U+00E0 to U+00FE, which have an uppercase form 32 below;
    U+00F7 is the division sign. *)
Definition isLatinLower (c : ascii) : bool :=
  between 224 254 c && negb (code c =? 247)%nat.

Definition toLower (c : ascii) : ascii :=
  if isUpper c || isLatinUpper c then ascii_of_nat (code c + 32) else c.

Definition toUpper (c : ascii) : ascii :=
  if isLower c || isLatinLower c then ascii_of_nat (code c - 32) else c.

End Char.

(** ** String primitives of the JavaScript runtime *)

Module Str.

Fixpoint map (f : ascii -> ascii) (s : string) : string :=
  match s with
  | EmptyString => EmptyString
  | String c r => String (f c) (map f r)
  end.

Fixpoint all (p : ascii -> bool) (s : string) : bool :=
  match s with
  | EmptyString => true
  | String c r => p c && all p r
  end.

(** [s.toLowerCase()] *)
Definition toLowerCase : string -> string := map Char.toLower.

(** [s.toUpperCase()]; the sharp s U+00DF becomes two code units. *)
Fixpoint toUpperCase (s : string) : string :=
  match s with
  | EmptyString => EmptyString
  | String c r =>
      if (Char.code c =? 223)%nat then String "S" (String "S" (toUpperCase r))
      else String (Char.toUpper c) (toUpperCase r)
  end.

Fixpoint trimStart (s : string) : string :=
  match s with
  | EmptyString => EmptyString
  | String c r => if Char.isSpace c then trimStart r else s
  end.

Fixpoint trimEnd (s : string) : string :=
  match s with
  | EmptyString => EmptyString
  | String c r =>
      match trimEnd r with
      | EmptyString => if Char.isSpace c then EmptyString else String c EmptyString
      | r' => String c r'
      end
  end.

(** [s.trim()] *)
Definition trim (s : string) : string := trimEnd (trimStart s).

(** [p] is what [s] begins with. *)
Fixpoint isPrefix (p s : string) : bool :=
  match p, s with
  | EmptyString, _ => true
  | String a p', String b s' => Ascii.eqb a b && isPrefix p' s'
  | String _ _, EmptyString => false
  end.

(** [s.startsWith(p)] *)
Definition startsWith (s p : string) : bool := isPrefix p s.

(** [s.includes(p)] *)
Fixpoint includes (s p : string) : bool :=
  isPrefix p s ||
  match s with
  | EmptyString => false
  | String _ r => includes r p
  end.

(** [s.substr(i, n)] for [0 <= i]. *)
Definition substr (s : string) (i n : nat) : string := String.substring i n s.

(** [s.split(/\s+/)]: the pieces between maximal runs of white space; a
    run at either end leaves an empty piece there, and the empty string
    splits into one empty piece.  [inRun] tells that the previous
    character was white space. *)
Fixpoint splitFrom (inRun : bool) (s : string) : list string :=
  match s with
  | EmptyString => [EmptyString]
  | String c r =>
      if Char.isSpace c then
        if inRun then splitFrom true r else EmptyString :: splitFrom true r
      else
        match splitFrom false r with
        | t :: ts => String c t :: ts
        | [] => [String c EmptyString]
        end
  end.

Definition split : string -> list string := splitFrom false.

(** [a.join(' ')] *)
Definition join (ws : list string) : string := String.concat " " ws.

(** [a.join('')] *)
Definition joinEmpty (ws : list string) : string := String.concat "" ws.

(** Insertion of [x] into a list sorted by code units. *)
Fixpoint insertSorted (x : string) (l : list string) : list string :=
  match l with
  | [] => [x]
  | y :: r => if String.leb x y then x :: l else y :: insertSorted x r
  end.

(** [a.sort()] with the default comparison, the order of code units. *)
Definition sort (l : list string) : list string :=
  fold_right insertSorted [] l.

(** [a.includes(x)] on an array of strings. *)
Definition member (x : string) (l : list string) : bool :=
  existsb (String.eqb x) l.

(** [[...new Set(a)]]: the first occurrences, in order. *)
Fixpoint unique (seen l : list string) : list string :=
  match l with
  | [] => []
  | x :: r => if member x seen then unique seen r else x :: unique (x :: seen) r
  end.

Definition isEmpty (s : string) : bool :=
  match s with EmptyString => true | _ => false end.

Definition len (s : string) : Z := Z.of_nat (String.length s).

End Str.

(** ** The regular expressions of the normalizer *)

Module Regex.

(** One alternative of a group [\b(?:...)\b] of [cleanCompanyName]: a
    literal, or a literal followed by [\.?]. *)
Inductive alt : Type :=
| Lit (w : string)
| LitDot (w : string).

Definition wordAt (i : nat) (s : string) : bool :=
  match String.get i s with
  | Some c => Char.isWord c
  | None => false
  end.

(** [\b] holds [n] characters into [s], [n >= 1]. *)
Definition boundaryAt (n : nat) (s : string) : bool :=
  xorb (wordAt (n - 1) s) (wordAt n s).

(** Length of the match of [a] followed by [\b] at the head of [s].
    [\.?] is greedy: the dot is taken first and given back when the
    closing [\b] fails after it. *)
Definition matchAlt (a : alt) (s : string) : option nat :=
  match a with
  | Lit w =>
      let n := String.length w in
      if Str.isPrefix w s && boundaryAt n s then Some n else None
  | LitDot w =>
      let n := String.length w in
      if Str.isPrefix (w ++ ".") s && boundaryAt (S n) s then Some (S n)
      else if Str.isPrefix w s && boundaryAt n s then Some n
      else None
  end.

(** The alternatives are tried from left to right. *)
Fixpoint matchGroup (alts : list alt) (s : string) : option nat :=
  match alts with
  | [] => None
  | a :: rest =>
      match matchAlt a s with
      | Some n => Some n
      | None => matchGroup rest s
      end
  end.

(** [s.replace(/\b(?:alts)\b/g, '')], scanning from the left.  [skip]
    counts the characters of the current match still to drop and
    [prevWord] tells whether the character before the head of [s] is a
    word character. *)
Fixpoint removeFrom (alts : list alt) (skip : nat) (prevWord : bool)
    (s : string) : string :=
  match s with
  | EmptyString => EmptyString
  | String c r =>
      match skip with
      | S k => removeFrom alts k (Char.isWord c) r
      | O =>
          if xorb prevWord (Char.isWord c) then
            match matchGroup alts s with
            | Some (S k) => removeFrom alts k (Char.isWord c) r
            | _ => String c (removeFrom alts 0 (Char.isWord c) r)
            end
          else String c (removeFrom alts 0 (Char.isWord c) r)
      end
  end.

Definition remove (alts : list alt) (s : string) : string :=
  removeFrom alts 0 false s.

(** [s.replace(/[^\w\s]/g, ' ')] *)
Definition replacePunct : string -> string :=
  Str.map (fun c => if Char.isWord c || Char.isSpace c then c else " "%char).

(** [s.replace(/\s+/g, ' ')]; [inRun] tells that the previous character
    was white space. *)
Fixpoint collapseFrom (inRun : bool) (s : string) : string :=
  match s with
  | EmptyString => EmptyString
  | String c r =>
      if Char.isSpace c then
        if inRun then collapseFrom true r
        else String " " (collapseFrom true r)
      else String c (collapseFrom false r)
  end.

Definition collapse : string -> string := collapseFrom false.

End Regex.

(** ** The two caches and the state monad *)

Record caches : Type := Caches {
  cleanNameCache : gmap string string;
  tickerCache : gmap string string
}.

Definition emptyCaches : caches := Caches ∅ ∅.

Definition M (A : Type) : Type := caches -> A * caches.

#[global] Instance M_ret : MRet M := fun A x st => (x, st).

#[global] Instance M_bind : MBind M :=
  fun A B k m st => let (x, st') := m st in k x st'.

Definition cleanNameGet (k : string) : M (option string) :=
  fun st => (cleanNameCache st !! k, st).

Definition cleanNameSet (k v : string) : M unit :=
  fun st => (tt, Caches (<[k := v]> (cleanNameCache st)) (tickerCache st)).

Definition tickerGet (k : string) : M (option string) :=
  fun st => (tickerCache st !! k, st).

Definition tickerSet (k v : string) : M unit :=
  fun st => (tt, Caches (cleanNameCache st) (<[k := v]> (tickerCache st))).

(** ** NameNormalizer: [cleanCompanyName] *)

Import Regex.

Definition suffixes : list (list alt) :=
  [ [ LitDot "ltd"; Lit "limited"; LitDot "inc"; Lit "incorporated";
      LitDot "corp"; Lit "corporation"; Lit "llc"; Lit "plc";
      LitDot "pvt"; Lit "private" ];
    [ LitDot "co"; Lit "company"; Lit "group"; Lit "holding";
      Lit "holdings"; Lit "industries"; Lit "international"; Lit "global" ];
    [ Lit "&"; Lit "and"; Lit "amp" ] ].

(** The loop over [suffixes]. *)
Definition removeSuffixes (s : string) : string :=
  fold_left (fun acc re => Regex.remove re acc) suffixes s.

(** Lines 23 to 39: everything computed from [name.toLowerCase()]. *)
Definition cleanSteps (lowered : string) : string :=
  let cleanName := Str.trim lowered in
  let cleanName := removeSuffixes cleanName in
  let cleanName := Regex.replacePunct cleanName in
  let cleanName := Regex.collapse cleanName in
  Str.trim cleanName.

(** The guard [!name || name.trim() === ''] *)
Definition isBlank (name : option string) : bool :=
  match name with
  | None => true
  | Some n => Str.isEmpty n || Str.isEmpty (Str.trim n)
  end.

Definition cleanCompanyName (name : option string) : M (option string) :=
  match name with
  | None => mret None
  | Some n =>
      if isBlank name then mret None
      else
        let cacheKey := Str.toLowerCase n in
        hit ← cleanNameGet cacheKey;
        match hit with
        | Some v => mret (Some v)
        | None =>
            let cleanName := cleanSteps cacheKey in
            _ ← cleanNameSet cacheKey cleanName;
            mret (Some cleanName)
        end
  end.

(** ** IEEE 754 binary64 arithmetic *)

Module Float64.

Definition prec : Z := 53.
Definition emax : Z := 1024.

(** The Number that holds the integer [n]. *)
Definition ofZ (n : Z) : spec_float := binary_normalize prec emax n 0 false.

Definition div : spec_float -> spec_float -> spec_float := SFdiv prec emax.
Definition mul : spec_float -> spec_float -> spec_float := SFmul prec emax.

(** [Math.round(x)]: the integer [floor(x + 1/2)], computed exactly from
    the sign, mantissa and exponent.  It is applied to finite numbers
    only; the other cases return [0]. *)
Definition round (x : spec_float) : Z :=
  match x with
  | S754_finite s m e =>
      let v := if s then Zneg m else Zpos m in
      if (0 <=? e)%Z then (v * 2 ^ e)%Z
      else ((2 * v + 2 ^ (- e)) / 2 ^ (1 - e))%Z
  | _ => 0%Z
  end.

(** The Number a decimal literal [num/den] denotes: the nearest double,
    which is also what the division of the two integers rounds to. *)
Definition literal (num den : Z) : spec_float := div (ofZ num) (ofZ den).

(** [x >= y] and [x < y] on Numbers. *)
Definition geb (x y : spec_float) : bool := SFleb y x.
Definition ltb (x y : spec_float) : bool := SFltb x y.

End Float64.

(** ** SimilarityMetrics: the class [FuzzyMatcher] *)

Module FuzzyMatcher.

Local Open Scope Z_scope.

(** [Math.min(a, b, c)] *)
Definition min3 (a b c : Z) : Z := Z.min a (Z.min b c).

Definition cost (c d : ascii) : Z := if Ascii.eqb c d then 0 else 1.

(** Row 0 of [matrix]: [matrix[0][j] = j]. *)
Definition firstRow (s2 : string) : list Z :=
  List.map Z.of_nat (seq 0 (S (String.length s2))).

(** The cells [matrix[i][1..]] of row [i], from left to right, for the
    character [c = s1[i - 1]].  [prev] is what is left of row [i - 1],
    starting at column [j - 1], and [left] is [matrix[i][j - 1]]. *)
Fixpoint fillRow (c : ascii) (s2 : string) (prev : list Z) (left : Z)
    : list Z :=
  match s2, prev with
  | String d r, diag :: (up :: _) as prev' =>
      let v := min3 (up + 1) (left + 1) (diag + cost c d) in
      v :: fillRow c r prev' v
  | _, _ => []
  end.

(** The rows [i], [i + 1], ... of [matrix] for the rest [s1] of the first
    string, given row [i - 1]; [matrix[i][0] = i]. *)
Fixpoint fillRows (s1 s2 : string) (i : Z) (prev : list Z)
    : list (list Z) :=
  match s1 with
  | EmptyString => []
  | String c r =>
      let row := i :: fillRow c s2 prev i in
      row :: fillRows r s2 (i + 1) row
  end.

Definition matrix (s1 s2 : string) : list (list Z) :=
  firstRow s2 :: fillRows s1 s2 1 (firstRow s2).

(** [matrix[len1][len2]] *)
Definition distance (s1 s2 : string) : Z :=
  nth (String.length s2) (nth (String.length s1) (matrix s1 s2) []) 0.

(** [Math.round(((maxLen - distance) / maxLen) * 100)] *)
Definition percent (distance maxLen : Z) : Z :=
  Float64.round
    (Float64.mul
       (Float64.div (Float64.ofZ (maxLen - distance)) (Float64.ofZ maxLen))
       (Float64.ofZ 100)).

Definition ratio (s1 s2 : string) : Z :=
  if Str.isEmpty s1 || Str.isEmpty s2 then 0
  else
    let len1 := Str.len s1 in
    let len2 := Str.len s2 in
    percent (distance s1 s2) (Z.max len1 len2).

(** The loop of [partialRatio] over the window starts [i]. *)
Definition partialRatio (s1 s2 : string) : Z :=
  if Str.isEmpty s1 || Str.isEmpty s2 then 0
  else
    let shorter := if (String.length s1 <=? String.length s2)%nat then s1 else s2 in
    let longer := if (String.length s2 <? String.length s1)%nat then s1 else s2 in
    fold_left
      (fun bestRatio i =>
         let substring := Str.substr longer i (String.length shorter) in
         Z.max bestRatio (ratio shorter substring))
      (seq 0 (S (String.length longer - String.length shorter)))
      0.

Definition tokenSortRatio (s1 s2 : string) : Z :=
  if Str.isEmpty s1 || Str.isEmpty s2 then 0
  else
    let sorted1 := Str.join (Str.sort (Str.split s1)) in
    let sorted2 := Str.join (Str.sort (Str.split s2)) in
    ratio sorted1 sorted2.

Definition tokenSetRatio (s1 s2 : string) : Z :=
  if Str.isEmpty s1 || Str.isEmpty s2 then 0
  else
    let tokens1 := Str.unique [] (Str.split s1) in
    let tokens2 := Str.unique [] (Str.split s2) in
    let intersection := List.filter (fun x => Str.member x tokens2) tokens1 in
    let difference1 := List.filter (fun x => negb (Str.member x tokens2)) tokens1 in
    let difference2 := List.filter (fun x => negb (Str.member x tokens1)) tokens2 in
    let sortedIntersection := Str.join (Str.sort intersection) in
    let sorted1 := Str.join (Str.sort difference1) in
    let sorted2 := Str.join (Str.sort difference2) in
    let combined1 := Str.trim (sortedIntersection ++ " " ++ sorted1) in
    let combined2 := Str.trim (sortedIntersection ++ " " ++ sorted2) in
    ratio combined1 combined2.

End FuzzyMatcher.

(** ** CandidateScorer: the body of the scoring loop of [findTicker] *)

Module Scorer.

Local Open Scope Z_scope.

(** Lines 216 to 229: the loop over [keyWords] for an [inputWord] that
    is not among them.  The state is [(matchedWords, significantMatches)];
    the first [keyWord] that passes either test ends the loop. *)
Fixpoint abbreviationLoop (inputWord : string) (keyWords : list string)
    (counts : Z * Z) : Z * Z :=
  let '(matchedWords, significantMatches) := counts in
  match keyWords with
  | [] => counts
  | keyWord :: rest =>
      if (3 <=? Str.len inputWord) && Str.startsWith keyWord inputWord then
        (matchedWords + 1,
         if 3 <? Str.len inputWord then significantMatches + 1
         else significantMatches)
      else if (3 <=? Str.len keyWord) && Str.startsWith inputWord keyWord then
        (matchedWords + 1, significantMatches)
      else abbreviationLoop inputWord rest counts
  end.

(** Lines 205 to 230: one turn of the loop over [inputWords]. *)
Definition wordStep (keyWords : list string) (counts : Z * Z)
    (inputWord : string) : Z * Z :=
  let '(matchedWords, significantMatches) := counts in
  if Str.member inputWord keyWords then
    (matchedWords + 1,
     if 3 <? Str.len inputWord then significantMatches + 1
     else significantMatches)
  else abbreviationLoop inputWord keyWords counts.

(** Lines 200 to 231: [(matchedWords, significantMatches)] after the loop. *)
Definition wordOverlap (inputWords keyWords : list string) : Z * Z :=
  fold_left (wordStep keyWords) inputWords (0, 0).

(** [n > 0 ? m / n : 0] *)
Definition quotient (m n : Z) : spec_float :=
  if 0 <? n then Float64.div (Float64.ofZ m) (Float64.ofZ n)
  else Float64.ofZ 0.

(** Lines 188 to 197. *)
Definition baseScore (cleanName cleanKey : string) : Z :=
  let baseScore := FuzzyMatcher.tokenSortRatio cleanName cleanKey in
  let partialScore := FuzzyMatcher.partialRatio cleanName cleanKey in
  let tokenSetScore := FuzzyMatcher.tokenSetRatio cleanName cleanKey in
  let partialScore :=
    if (Str.len cleanKey <=? 4) && (80 <? partialScore)
    then Z.min partialScore 60 else partialScore in
  Z.max (Z.max baseScore partialScore) tokenSetScore.

(** Lines 233 to 250: the boost and the penalty from the word counts. *)
Definition overlapAdjust (inputWords keyWords : list string) (score : Z) : Z :=
  let '(matchedWords, significantMatches) := wordOverlap inputWords keyWords in
  let totalInputWords := Z.of_nat (length inputWords) in
  let wordMatchRatio := quotient matchedWords totalInputWords in
  let significantWordsCount :=
    Z.of_nat (length (List.filter (fun w => 3 <? Str.len w) inputWords)) in
  let significantMatchRatio := quotient significantMatches significantWordsCount in
  let score :=
    if Float64.geb wordMatchRatio (Float64.literal 8 10)
       && Float64.geb significantMatchRatio (Float64.literal 5 10)
    then score + 40
    else if Float64.geb wordMatchRatio (Float64.literal 7 10) then score + 30
    else if Float64.geb wordMatchRatio (Float64.literal 5 10) then score + 15
    else score in
  if (2 <=? totalInputWords) && Float64.ltb wordMatchRatio (Float64.literal 3 10)
  then score - 25 else score.

(** Lines 252 to 256. *)
Definition lengthAdjust (cleanName cleanKey : string) (score : Z) : Z :=
  let lenDiff := Z.abs (Str.len cleanName - Str.len cleanKey) in
  if 10 <? lenDiff then score - Z.min 20 lenDiff else score.

(** Lines 258 to 266. *)
Definition firstWordAdjust (inputWords keyWords : list string) (score : Z) : Z :=
  match inputWords, keyWords with
  | input0 :: _, key0 :: _ =>
      let firstWordScore := FuzzyMatcher.ratio input0 key0 in
      if firstWordScore <? 60 then score - 20
      else if 90 <=? firstWordScore then score + 10
      else score
  | _, _ => score
  end.

(** Lines 268 to 277. *)
Definition prefixAdjust (inputWords keyWords : list string) (score : Z) : Z :=
  match inputWords, keyWords with
  | input0 :: _, key0 :: _ =>
      if String.eqb input0 key0 then score + 25
      else if (3 <=? Str.len input0) && Str.startsWith key0 input0 then score + 20
      else if (3 <=? Str.len key0) && Str.startsWith input0 key0 then score + 15
      else score
  | _, _ => score
  end.

(** [word[0]], for a non-empty [word]. *)
Definition firstChar (word : string) : string :=
  match word with
  | String c _ => String c EmptyString
  | EmptyString => EmptyString
  end.

(** Lines 282 to 285. *)
Definition acronymOf (keyWords : list string) : string :=
  Str.joinEmpty
    (List.map (fun word => Str.toUpperCase (firstChar word))
       (List.filter (fun word => 2 <? Str.len word) keyWords)).

(** Lines 279 to 312; [input0] is [inputWords[0]], read only when
    [inputWords] is not empty. *)
Definition acronymAdjust (inputWords keyWords : list string) (score : Z) : Z :=
  if (2 <=? Z.of_nat (length keyWords)) then
    let acronym := acronymOf keyWords in
    let input0 := hd EmptyString inputWords in
    if Nat.eqb (length inputWords) 1 && (3 <=? Str.len input0) then
      let inputWord := Str.toUpperCase input0 in
      if String.eqb inputWord acronym then Z.max (score + 50) 95
      else if Str.includes acronym inputWord || Str.startsWith acronym inputWord
      then score + 30
      else if (3 <=? Str.len inputWord) && (Str.len inputWord <=? 5)
      then score - 15
      else score
    else if (2 <=? Z.of_nat (length inputWords)) && (3 <=? Str.len input0) then
      let firstWord := Str.toUpperCase input0 in
      if String.eqb firstWord acronym then score + 45
      else if Str.includes acronym firstWord || Str.startsWith acronym firstWord
      then score + 25
      else score
    else score
  else score.

(** Steps 1 to 7 of the scorer: lines 188 to 277. *)
Definition scoreBeforeAcronym (cleanName : string) (inputWords : list string)
    (cleanKey : string) : Z :=
  let keyWords := Str.split cleanKey in
  let score := baseScore cleanName cleanKey in
  let score := overlapAdjust inputWords keyWords score in
  let score := lengthAdjust cleanName cleanKey score in
  let score := firstWordAdjust inputWords keyWords score in
  prefixAdjust inputWords keyWords score.

(** The value of [score] at line 314. *)
Definition score (cleanName : string) (inputWords : list string)
    (cleanKey : string) : Z :=
  let keyWords := Str.split cleanKey in
  acronymAdjust inputWords keyWords
    (scoreBeforeAcronym cleanName inputWords cleanKey).

End Scorer.

(** ** [JSON.stringify] of an array of strings *)

Module JSON.

Definition dquote : ascii := ascii_of_nat 34.
Definition backslash : ascii := ascii_of_nat 92.

Definition hexDigit (n : nat) : ascii :=
  nth n (list_ascii_of_string "0123456789abcdef") "0"%char.

(** The escape of one code unit inside a JSON string. *)
Definition quoteChar (c : ascii) : string :=
  let n := Char.code c in
  if (n =? 34)%nat then String backslash (String dquote EmptyString)
  else if (n =? 92)%nat then String backslash (String backslash EmptyString)
  else if (n =? 8)%nat then String backslash "b"
  else if (n =? 12)%nat then String backslash "f"
  else if (n =? 10)%nat then String backslash "n"
  else if (n =? 13)%nat then String backslash "r"
  else if (n =? 9)%nat then String backslash "t"
  else if (n <? 32)%nat then
    String backslash
      (String "u" (String "0" (String "0"
         (String (hexDigit (n / 16)) (String (hexDigit (n mod 16)) EmptyString)))))
  else String c EmptyString.

Fixpoint escape (s : string) : string :=
  match s with
  | EmptyString => EmptyString
  | String c r => quoteChar c ++ escape r
  end.

Definition quote (s : string) : string :=
  String dquote (escape s ++ String dquote EmptyString).

Definition stringify (l : list string) : string :=
  "[" ++ String.concat "," (List.map quote l) ++ "]".

End JSON.

(** ** Resolver: [findTicker] *)

(** A JavaScript value in a condition: [null] and [''] are falsy. *)
Definition truthy (v : option string) : bool :=
  match v with
  | Some s => negb (Str.isEmpty s)
  | None => false
  end.

(** Lines 130 and 131. *)
Definition sentinel (companyName : option string) : bool :=
  match companyName with
  | None => true
  | Some n =>
      Str.isEmpty n || Str.isEmpty (Str.trim n)
      || Str.includes n "Cash" || Str.includes n "Equity"
  end.

(** Line 145. *)
Definition cacheKeyOf (cleanName : string) (tickerDict : list (string * string))
    : string :=
  cleanName ++ ":" ++ JSON.stringify (Str.sort (List.map fst tickerDict)).

(** [tickerDict[key]] for an own key. *)
Fixpoint dictGet (key : string) (tickerDict : list (string * string))
    : option string :=
  match tickerDict with
  | [] => None
  | (k, v) :: rest => if String.eqb k key then Some v else dictGet key rest
  end.

(** Strategy 1, lines 155 to 161: the ticker of the first entry whose
    cleaned key is [cleanName]. *)
Fixpoint exactLoop (cleanName : string) (entries : list (string * string))
    : M (option string) :=
  match entries with
  | [] => mret None
  | (key, ticker) :: rest =>
      cleanKey ← cleanCompanyName (Some key);
      if bool_decide (cleanKey = Some cleanName) then mret (Some ticker)
      else exactLoop cleanName rest
  end.

(** Strategy 1.5, lines 165 to 173. *)
Fixpoint directLoop (cleanName : string) (entries : list (string * string))
    : option string :=
  match entries with
  | [] => None
  | (key, ticker) :: rest =>
      let keyUpper := Str.toUpperCase key in
      let inputUpper := Str.toUpperCase cleanName in
      if Str.includes keyUpper (" " ++ inputUpper ++ " ")
         || Str.startsWith keyUpper (inputUpper ++ " ")
      then Some ticker
      else directLoop cleanName rest
  end.

(** Strategy 2, lines 181 to 318; the state of the loop is
    [(bestMatch, bestScore)]. *)
Fixpoint fuzzyLoop (cleanName : string) (inputWords : list string)
    (entries : list (string * string)) (best : option string * Z)
    : M (option string * Z) :=
  match entries with
  | [] => mret best
  | (key, ticker) :: rest =>
      cleanKey ← cleanCompanyName (Some key);
      match cleanKey with
      | Some ck =>
          if Str.isEmpty ck then fuzzyLoop cleanName inputWords rest best
          else
            let score := Scorer.score cleanName inputWords ck in
            let minThreshold := 70%Z in
            if (snd best <? score)%Z && (minThreshold <=? score)%Z
            then fuzzyLoop cleanName inputWords rest (Some key, score)
            else fuzzyLoop cleanName inputWords rest best
      | None => fuzzyLoop cleanName inputWords rest best
      end
  end.

Definition findTicker (companyName : option string)
    (tickerDict : list (string * string)) : M string :=
  if sentinel companyName then mret ""
  else
    cleaned ← cleanCompanyName companyName;
    match cleaned with
    | None => mret ""
    | Some cleanName =>
        if Str.isEmpty cleanName || (Str.len cleanName <=? 2)%Z then mret ""
        else
          let cacheKey := cacheKeyOf cleanName tickerDict in
          cached ← tickerGet cacheKey;
          match cached with
          | Some ticker => mret ticker
          | None =>
              let inputWords := Str.split cleanName in
              exact ← exactLoop cleanName tickerDict;
              match exact with
              | Some ticker => _ ← tickerSet cacheKey ticker; mret ticker
              | None =>
                  let direct :=
                    if Nat.eqb (length inputWords) 1 && (3 <=? Str.len cleanName)%Z
                    then directLoop cleanName tickerDict else None in
                  match direct with
                  | Some ticker => _ ← tickerSet cacheKey ticker; mret ticker
                  | None =>
                      best ← fuzzyLoop cleanName inputWords tickerDict (None, 0%Z);
                      if truthy (fst best) then
                        let result :=
                          default "" (bestMatch ← fst best; dictGet bestMatch tickerDict) in
                        _ ← tickerSet cacheKey result; mret result
                      else
                        _ ← tickerSet cacheKey ""; mret ""
                  end
              end
          end
    end.

(** ** The test script, [src/unnamed/part_000] *)

Definition sampleTickerDict : list (string * string) :=
  [ ("Computer Age Management Services Ltd", "CAMS IN EQUITY");
    ("Precision Camshafts Ltd", "PRECAM IN EQUITY");
    ("Aditya Birla Fashion and Retail Ltd", "ABFRL IN EQUITY");
    ("Aditya Birla Capital Ltd", "ABCAP IN EQUITY");
    ("Aditya Birla Real Estate Ltd", "ABREL IN EQUITY");
    ("BLS International Services Ltd", "BLSIN IN EQUITY");
    ("Agarwal Industrial Corp Ltd", "AGAR IN EQUITY");
    ("Apar Industries Ltd", "APR IN EQUITY");
    ("Authum Investment & Infrastructure Ltd", "AIIL IN EQUITY");
    ("LS Industries Ltd", "LSIL IN EQUITY");
    ("Ser Industries Ltd", "SER IN EQUITY");
    ("A-1 Ltd", "A1L IN EQUITY");
    ("Esaar India Ltd", "ESARI IN EQUITY") ].

Definition testCases : list string :=
  [ "A B Real Estate"; "Cams Services"; "CAMS"; "BLS Internat.";
    "Aditya Bir. Fas."; "Aditya Birla Cap"; "Agarwal Indl."; "Apar Inds.";
    "Authum Invest" ].

Definition expectedResults : list (string * string) :=
  [ ("A B Real Estate", "ABREL IN EQUITY");
    ("Cams Services", "CAMS IN EQUITY");
    ("CAMS", "CAMS IN EQUITY");
    ("BLS Internat.", "BLSIN IN EQUITY");
    ("Aditya Bir. Fas.", "ABFRL IN EQUITY");
    ("Aditya Birla Cap", "ABCAP IN EQUITY");
    ("Agarwal Indl.", "AGAR IN EQUITY");
    ("Apar Inds.", "APR IN EQUITY");
    ("Authum Invest", "AIIL IN EQUITY") ].

(** Lines 65 to 82: the loop over the test cases, which counts in
    [passedTests] the results that are the expected ones.  The calls share
    the two caches. *)
Fixpoint runTests (cases : list string) (passedTests : Z) : M Z :=
  match cases with
  | [] => mret passedTests
  | testCase :: rest =>
      result ← findTicker (Some testCase) sampleTickerDict;
      let expected := dictGet testCase expectedResults in
      let passed := bool_decide (Some result = expected) in
      runTests rest (if passed then (passedTests + 1)%Z else passedTests)
  end.

(** * Specification

    The definitions below are used to state and prove the properties; they
    are not part of the program. *)

(** What [cleanCompanyName] computes when its cache is left out. *)
Definition cleanPure (name : option string) : option string :=
  match name with
  | None => None
  | Some n =>
      if isBlank name then None else Some (cleanSteps (Str.toLowerCase n))
  end.

(** Every entry of the cache of cleaned names was computed by
    [cleanCompanyName] from its key. *)
Definition cleanCacheOk (c : gmap string string) : Prop :=
  forall k v, c !! k = Some v -> v = cleanSteps k.

(** The characters a cleaned name is made of. *)
Definition isCleanChar (c : ascii) : bool :=
  Char.isLower c || Char.isDigit c || (Char.code c =? 95)%nat
  || (Char.code c =? 32)%nat.

(** Letters, digits and white space: what the specification expects. *)
Definition isAlnumOrSpace (c : ascii) : bool :=
  Char.isUpper c || Char.isLower c || Char.isDigit c || Char.isSpace c.

(** No white space follows white space; [prev] tells that the character
    before [s] is white space. *)
Fixpoint singleSpaced (prev : bool) (s : string) : bool :=
  match s with
  | EmptyString => true
  | String c r =>
      if Char.isSpace c then negb prev && singleSpaced true r
      else singleSpaced false r
  end.

(** The shape of a cleaned name: clean characters, nothing to trim, and
    single spaces. *)
Definition normalForm (y : string) : Prop :=
  Str.all isCleanChar y = true /\ Str.trim y = y /\ singleSpaced false y = true.

(** The edit distance by its recurrence.  The matrix of [ratio] holds the
    distances between prefixes, so the two arguments are prefixes read
    backwards: the heads are the last characters. *)
Fixpoint lev (x : list ascii) : list ascii -> Z :=
  fix inner (y : list ascii) : Z :=
    match x, y with
    | [], _ => Z.of_nat (length y)
    | _, [] => Z.of_nat (length x)
    | a :: x', b :: y' =>
        FuzzyMatcher.min3 (lev x' y + 1) (inner y' + 1)
          (lev x' y' + FuzzyMatcher.cost a b)
    end.

(** The characters of [s], last first, in front of [acc]. *)
Fixpoint revOnto (s : string) (acc : list ascii) : list ascii :=
  match s with
  | EmptyString => acc
  | String c r => revOnto r (c :: acc)
  end.

(** The cells right of column [length q] in the row of the prefix [p],
    where [q] is the prefix of the second string already passed and [s2]
    what is left of it. *)
Fixpoint specRow (p q : list ascii) (s2 : string) : list Z :=
  match s2 with
  | EmptyString => []
  | String d r => lev p (d :: q) :: specRow p (d :: q) r
  end.

(** The rows below the row of the prefix [p], for the rest [s1] of the
    first string. *)
Fixpoint specRows (s1 : string) (p : list ascii) (s2 : string) : list (list Z) :=
  match s1 with
  | EmptyString => []
  | String c r => (lev (c :: p) [] :: specRow (c :: p) [] s2) :: specRows r (c :: p) s2
  end.

(** An input word is matched by a candidate when one of the three tests of
    the word loop holds for it: it is one of the candidate's words, it is
    (with at least 3 characters) a prefix of one, or one of them (with at
    least 3 characters) is a prefix of it. *)
Definition wordMatched (keyWords : list string) (inputWord : string) : bool :=
  Str.member inputWord keyWords
  || existsb
       (fun keyWord =>
          ((3 <=? Str.len inputWord)%Z && Str.startsWith keyWord inputWord)
          || ((3 <=? Str.len keyWord)%Z && Str.startsWith inputWord keyWord))
       keyWords.

(** The matched input words longer than 3 characters. *)
Definition significantMatched (inputWords keyWords : list string) : list string :=
  List.filter (fun w => wordMatched keyWords w && (3 <? Str.len w)%Z) inputWords.

(** The score of the entry [key] in the fuzzy loop, when the entry is not
    skipped. *)
Definition candidateScore (cleanName : string) (inputWords : list string)
    (key : string) : option Z :=
  match cleanPure (Some key) with
  | Some ck =>
      if Str.isEmpty ck then None
      else Some (Scorer.score cleanName inputWords ck)
  | None => None
  end.

(** The three loops of [findTicker] with the cache of cleaned names left
    out. *)
Fixpoint exactPure (cleanName : string) (entries : list (string * string))
    : option string :=
  match entries with
  | [] => None
  | (key, ticker) :: rest =>
      if bool_decide (cleanPure (Some key) = Some cleanName) then Some ticker
      else exactPure cleanName rest
  end.

Fixpoint fuzzyPure (cleanName : string) (inputWords : list string)
    (entries : list (string * string)) (best : option string * Z)
    : option string * Z :=
  match entries with
  | [] => best
  | (key, ticker) :: rest =>
      match candidateScore cleanName inputWords key with
      | Some score =>
          if (snd best <? score)%Z && (70 <=? score)%Z
          then fuzzyPure cleanName inputWords rest (Some key, score)
          else fuzzyPure cleanName inputWords rest best
      | None => fuzzyPure cleanName inputWords rest best
      end
  end.

(** What [findTicker] computes below its cache lookup. *)
Definition resolveClean (cleanName : string) (tickerDict : list (string * string))
    : string :=
  let inputWords := Str.split cleanName in
  match exactPure cleanName tickerDict with
  | Some ticker => ticker
  | None =>
      let direct :=
        if Nat.eqb (length inputWords) 1 && (3 <=? Str.len cleanName)%Z
        then directLoop cleanName tickerDict else None in
      match direct with
      | Some ticker => ticker
      | None =>
          let best := fuzzyPure cleanName inputWords tickerDict (None, 0%Z) in
          if truthy (fst best)
          then default "" (bestMatch ← fst best; dictGet bestMatch tickerDict)
          else ""
      end
  end.

(** What [findTicker] computes when both caches are left out. *)
Definition resolve (companyName : option string)
    (tickerDict : list (string * string)) : string :=
  if sentinel companyName then ""
  else
    match cleanPure companyName with
    | None => ""
    | Some cleanName =>
        if Str.isEmpty cleanName || (Str.len cleanName <=? 2)%Z then ""
        else resolveClean cleanName tickerDict
    end.

(** Every resolution cached under a key of [tickerDict], for a cleaned
    name, was made over [tickerDict]. *)
Definition tickerCacheOk (tickerDict : list (string * string))
    (c : gmap string string) : Prop :=
  forall cleanName v,
    normalForm cleanName ->
    c !! cacheKeyOf cleanName tickerDict = Some v ->
    v = resolveClean cleanName tickerDict.

Definition cachesOk (tickerDict : list (string * string)) (st : caches) : Prop :=
  cleanCacheOk (cleanNameCache st) /\ tickerCacheOk tickerDict (tickerCache st).

(** Reading back what [JSON.quote] writes: the text up to the closing
    quote, with the escapes undone, and what follows that quote. *)
Definition hexValue (c : ascii) : option nat :=
  let n := Char.code c in
  if Char.isDigit c then Some (n - 48)%nat
  else if Char.between 97 102 c then Some (n - 87)%nat
  else None.

Definition unescapeChar (c : ascii) : option ascii :=
  let n := Char.code c in
  if (n =? 34)%nat then Some JSON.dquote
  else if (n =? 92)%nat then Some JSON.backslash
  else if (n =? 98)%nat then Some (ascii_of_nat 8)
  else if (n =? 102)%nat then Some (ascii_of_nat 12)
  else if (n =? 110)%nat then Some (ascii_of_nat 10)
  else if (n =? 114)%nat then Some (ascii_of_nat 13)
  else if (n =? 116)%nat then Some (ascii_of_nat 9)
  else None.

Fixpoint unescape (s : string) : option (string * string) :=
  match s with
  | EmptyString => None
  | String c r =>
      if Ascii.eqb c JSON.dquote then Some (EmptyString, r)
      else if Ascii.eqb c JSON.backslash then
        match r with
        | EmptyString => None
        | String x r1 =>
            if Ascii.eqb x "u" then
              match r1 with
              | String _ (String _ (String h (String l r2))) =>
                  match hexValue h, hexValue l, unescape r2 with
                  | Some hv, Some lv, Some (t, rest) =>
                      Some (String (ascii_of_nat (16 * hv + lv)) t, rest)
                  | _, _, _ => None
                  end
              | _ => None
              end
            else
              match unescapeChar x, unescape r1 with
              | Some c', Some (t, rest) => Some (String c' t, rest)
              | _, _ => None
              end
        end
      else
        match unescape r with
        | Some (t, rest) => Some (String c t, rest)
        | None => None
        end
  end.

(** The full names of a mapping as the cache key lists them. *)
Definition sortedNames (tickerDict : list (string * string)) : list string :=
  Str.sort (List.map fst tickerDict).

(** The states of the two caches that calls of the two exported functions
    reach from the empty caches, when [tickerDict] is the only mapping used
    among those that have its full names. *)
Inductive reachableFor (tickerDict : list (string * string)) : caches -> Prop :=
| reach_empty : reachableFor tickerDict emptyCaches
| reach_clean name st :
    reachableFor tickerDict st ->
    reachableFor tickerDict (snd (cleanCompanyName name st))
| reach_same companyName st :
    reachableFor tickerDict st ->
    reachableFor tickerDict (snd (findTicker companyName tickerDict st))
| reach_other companyName otherDict st :
    reachableFor tickerDict st ->
    sortedNames otherDict <> sortedNames tickerDict ->
    reachableFor tickerDict (snd (findTicker companyName otherDict st)).

(** The test of the direct strategy (line 168) on the full name [key]. *)
Definition directHit (cleanName key : string) : bool :=
  let keyUpper := Str.toUpperCase key in
  let inputUpper := Str.toUpperCase cleanName in
  Str.includes keyUpper (" " ++ inputUpper ++ " ")
  || Str.startsWith keyUpper (inputUpper ++ " ").

(** A Number that is not negative: zero, an infinity or NaN, or finite
    with the sign bit clear. *)
Definition signClear (x : spec_float) : Prop :=
  match x with
  | S754_finite s _ _ => s = false
  | _ => True
  end.

(** A Number that is at most [T]: a zero, or finite with the sign bit
    clear, an exponent [e <= 0] and a mantissa [m <= T * 2^(-e)]. *)
Definition atMost (T : Z) (x : spec_float) : Prop :=
  match x with
  | S754_zero _ => True
  | S754_finite false m e => (e <= 0 /\ Zpos m <= T * 2 ^ (- e))%Z
  | _ => False
  end.

(** What a record of [shr] says about a number below [T]: its mantissa is
    at most [T * 2^(-e)], with room for one more when bits were lost. *)
Definition shrAtMost (T : Z) (mrs : shr_record) (e : Z) : Prop :=
  (0 <= shr_m mrs
   /\ shr_m mrs <= T * 2 ^ (- e)
   /\ (shr_r mrs || shr_s mrs = true -> shr_m mrs + 1 <= T * 2 ^ (- e)))%Z.

(** * Properties *)

(** ** Characters and strings *)

Ltac ascii_cases c := destruct c as [[] [] [] [] [] [] [] []].

Lemma toLower_not_upper c : Char.isUpper (Char.toLower c) = false.
Proof. ascii_cases c; vm_compute; reflexivity. Qed.

Lemma clean_char_lower c : isCleanChar c = true -> Char.toLower c = c.
Proof. ascii_cases c; vm_compute; intros H; try reflexivity; discriminate H. Qed.

Lemma clean_char_class c :
  isCleanChar c = true -> Char.isWord c || Char.isSpace c = true.
Proof. ascii_cases c; vm_compute; intros H; try reflexivity; discriminate H. Qed.

Lemma clean_char_space c :
  isCleanChar c = true -> Char.isSpace c = true -> c = " "%char.
Proof. ascii_cases c; vm_compute; intros H1 H2; try reflexivity; discriminate. Qed.

Lemma word_or_space_clean c :
  Char.isUpper c = false -> Char.isWord c = true -> isCleanChar c = true.
Proof. ascii_cases c; vm_compute; intros H1 H2; try reflexivity; discriminate. Qed.

Lemma all_map_id p f s :
  (forall c, p c = true -> f c = c) -> Str.all p s = true -> Str.map f s = s.
Proof.
  intros Hf. induction s as [|c r IH]; simpl; [reflexivity|].
  intros H. apply andb_true_iff in H as [Hc Hr].
  rewrite (Hf c Hc), (IH Hr). reflexivity.
Qed.

Lemma all_impl (p q : ascii -> bool) s :
  (forall c, p c = true -> q c = true) -> Str.all p s = true -> Str.all q s = true.
Proof.
  intros Hpq. induction s as [|c r IH]; simpl; [reflexivity|].
  intros H. apply andb_true_iff in H as [Hc Hr].
  rewrite (Hpq c Hc), (IH Hr). reflexivity.
Qed.

Lemma all_toLowerCase s :
  Str.all (fun c => negb (Char.isUpper c)) (Str.toLowerCase s) = true.
Proof.
  induction s as [|c r IH]; simpl; [reflexivity|].
  rewrite toLower_not_upper. exact IH.
Qed.

(** *** [trim] *)

Lemma all_trimStart p s : Str.all p s = true -> Str.all p (Str.trimStart s) = true.
Proof.
  induction s as [|c r IH]; simpl; [reflexivity|].
  intros H. destruct (Char.isSpace c); [|exact H].
  apply andb_true_iff in H as [_ Hr]. exact (IH Hr).
Qed.

Lemma all_trimEnd p s : Str.all p s = true -> Str.all p (Str.trimEnd s) = true.
Proof.
  induction s as [|c r IH]; simpl; [reflexivity|].
  intros H. apply andb_true_iff in H as [Hc Hr]. specialize (IH Hr).
  destruct (Str.trimEnd r) as [|d r'].
  - destruct (Char.isSpace c); simpl; [reflexivity|]. rewrite Hc. reflexivity.
  - simpl in *. rewrite Hc. exact IH.
Qed.

Lemma all_trim p s : Str.all p s = true -> Str.all p (Str.trim s) = true.
Proof. intros H. apply all_trimEnd, all_trimStart, H. Qed.

Lemma trimEnd_idem s : Str.trimEnd (Str.trimEnd s) = Str.trimEnd s.
Proof.
  induction s as [|c r IH]; simpl; [reflexivity|].
  destruct (Str.trimEnd r) as [|d r'] eqn:E.
  - destruct (Char.isSpace c) eqn:Ec; simpl; [reflexivity|]. rewrite Ec. reflexivity.
  - simpl. simpl in IH. rewrite IH. reflexivity.
Qed.

Lemma trimEnd_head c r :
  Char.isSpace c = false ->
  exists r', Str.trimEnd (String c r) = String c r'.
Proof.
  intros Hc. simpl. destruct (Str.trimEnd r) as [|d r'].
  - rewrite Hc. eauto.
  - eauto.
Qed.

Lemma trimStart_head s :
  Str.trimStart s = EmptyString \/
  exists c r, Str.trimStart s = String c r /\ Char.isSpace c = false.
Proof.
  induction s as [|c r IH]; simpl; [left; reflexivity|].
  destruct (Char.isSpace c) eqn:Ec; [exact IH|]. right. eauto.
Qed.

Lemma trim_idem s : Str.trim (Str.trim s) = Str.trim s.
Proof.
  unfold Str.trim.
  destruct (trimStart_head s) as [E | (c & r & E & Hc)]; rewrite E.
  - reflexivity.
  - destruct (trimEnd_head c r Hc) as [r' E']. rewrite E'.
    simpl Str.trimStart. rewrite Hc. rewrite <- E'. apply trimEnd_idem.
Qed.

Lemma trimStart_all_space s :
  Str.trimStart s = EmptyString <-> Str.all Char.isSpace s = true.
Proof.
  induction s as [|c r IH]; simpl; [tauto|].
  destruct (Char.isSpace c); simpl; [exact IH|]. split; discriminate.
Qed.

Lemma trimEnd_empty s :
  Str.trimEnd s = EmptyString <-> Str.all Char.isSpace s = true.
Proof.
  induction s as [|c r IH]; simpl; [tauto|].
  destruct (Str.trimEnd r) as [|d r'].
  - destruct (Char.isSpace c); simpl.
    + split; [intros _; apply IH; reflexivity | reflexivity].
    + split; discriminate.
  - split; [discriminate|]. intros H. apply andb_true_iff in H as [_ H].
    apply IH in H. discriminate.
Qed.

Lemma trim_empty s :
  Str.trim s = EmptyString <-> Str.all Char.isSpace s = true.
Proof.
  unfold Str.trim. rewrite trimEnd_empty. split.
  - intros H. destruct (trimStart_head s) as [E | (c & r & E & Hc)].
    + apply trimStart_all_space, E.
    + rewrite E in H. simpl in H. rewrite Hc in H. discriminate.
  - intros H. apply all_trimStart, H.
Qed.

Lemma isEmpty_true s : Str.isEmpty s = true <-> s = EmptyString.
Proof. destruct s; simpl; split; congruence. Qed.

Lemma isEmpty_false s : Str.isEmpty s = false <-> s <> EmptyString.
Proof. destruct s; simpl; split; congruence. Qed.

Lemma isBlank_spec name :
  isBlank name = true <->
  name = None \/ exists s, name = Some s /\ (s = EmptyString \/ Str.trim s = EmptyString).
Proof.
  destruct name as [s|]; simpl.
  - rewrite orb_true_iff, !isEmpty_true. split.
    + intros H. right. exists s. split; [reflexivity | exact H].
    + intros [H | (s' & [= <-] & H)]; [discriminate | exact H].
  - split; [left; reflexivity | reflexivity].
Qed.

(** ** The normalizer *)

(** *** What each step keeps *)

Lemma all_removeFrom p alts s : forall skip prevWord,
  Str.all p s = true -> Str.all p (Regex.removeFrom alts skip prevWord s) = true.
Proof.
  induction s as [|c r IH]; intros skip prevWord H; simpl; [reflexivity|].
  simpl in H. apply andb_true_iff in H as [Hc Hr].
  destruct skip as [|k]; [|apply IH, Hr].
  destruct (xorb prevWord (Char.isWord c)).
  - destruct (Regex.matchGroup alts (String c r)) as [[|k]|];
      simpl; rewrite ?Hc; simpl; apply IH, Hr.
  - simpl. rewrite Hc. apply IH, Hr.
Qed.

Lemma all_removeSuffixes p s :
  Str.all p s = true -> Str.all p (removeSuffixes s) = true.
Proof.
  unfold removeSuffixes. generalize suffixes. intros res. revert s.
  induction res as [|re res IH]; intros s H; simpl; [exact H|].
  apply IH. apply all_removeFrom, H.
Qed.

Lemma replacePunct_clean s :
  Str.all (fun c => negb (Char.isUpper c)) s = true ->
  Str.all (fun c => isCleanChar c || Char.isSpace c) (Regex.replacePunct s) = true.
Proof.
  unfold Regex.replacePunct.
  induction s as [|c r IH]; simpl; [reflexivity|].
  intros H. apply andb_true_iff in H as [Hc Hr]. rewrite (IH Hr), andb_true_r.
  apply negb_true_iff in Hc.
  destruct (Char.isWord c) eqn:Hw; simpl.
  - rewrite (word_or_space_clean c Hc Hw). reflexivity.
  - destruct (Char.isSpace c) eqn:Hs; [rewrite Hs; apply orb_true_r | reflexivity].
Qed.

Lemma collapseFrom_clean s : forall inRun,
  Str.all (fun c => isCleanChar c || Char.isSpace c) s = true ->
  Str.all isCleanChar (Regex.collapseFrom inRun s) = true /\
  singleSpaced inRun (Regex.collapseFrom inRun s) = true.
Proof.
  induction s as [|c r IH]; intros inRun H; simpl; [split; reflexivity|].
  simpl in H. apply andb_true_iff in H as [Hc Hr].
  destruct (Char.isSpace c) eqn:Hs.
  - destruct (IH true Hr) as [H1 H2]. destruct inRun; simpl.
    + split; [exact H1|]. clear -H2.
      destruct (Regex.collapseFrom true r) as [|d r']; [reflexivity|].
      simpl in *. destruct (Char.isSpace d); [discriminate H2 | exact H2].
    + split; [exact H1 | exact H2].
  - destruct (IH false Hr) as [H1 H2]. rewrite orb_false_r in Hc.
    simpl. rewrite Hc, ?Hs. split; [exact H1 | exact H2].
Qed.

Lemma collapseFrom_all_space s : forall inRun,
  Str.all Char.isSpace s = true ->
  Str.all Char.isSpace (Regex.collapseFrom inRun s) = true.
Proof.
  induction s as [|c r IH]; intros inRun H; simpl; [reflexivity|].
  simpl in H. apply andb_true_iff in H as [Hc Hr]. rewrite Hc.
  destruct inRun; simpl; apply IH, Hr.
Qed.

Lemma singleSpaced_weaken s : singleSpaced true s = true -> singleSpaced false s = true.
Proof. destruct s as [|c r]; simpl; [reflexivity|]. destruct (Char.isSpace c); [discriminate | tauto]. Qed.

Lemma singleSpaced_trimStart s : forall prev,
  singleSpaced prev s = true -> singleSpaced false (Str.trimStart s) = true.
Proof.
  induction s as [|c r IH]; intros prev H; simpl; [reflexivity|].
  simpl in H. destruct (Char.isSpace c) eqn:Hs.
  - apply andb_true_iff in H as [_ H]. exact (IH true H).
  - simpl. rewrite Hs. exact H.
Qed.

Lemma singleSpaced_trimEnd s : forall prev,
  singleSpaced prev s = true -> singleSpaced prev (Str.trimEnd s) = true.
Proof.
  induction s as [|c r IH]; intros prev H; simpl; [reflexivity|].
  simpl in H. destruct (Char.isSpace c) eqn:Hs.
  - apply andb_true_iff in H as [Hp H]. specialize (IH true H).
    destruct (Str.trimEnd r) as [|d r']; [reflexivity|].
    simpl. rewrite Hs, Hp. exact IH.
  - specialize (IH false H).
    destruct (Str.trimEnd r) as [|d r']; simpl; rewrite Hs; [reflexivity | exact IH].
Qed.

(** *** The shape of a cleaned name *)

Lemma cleanSteps_normal lowered :
  Str.all (fun c => negb (Char.isUpper c)) lowered = true ->
  normalForm (cleanSteps lowered).
Proof.
  intros H. unfold cleanSteps, normalForm.
  pose proof (replacePunct_clean _ (all_removeSuffixes _ _ (all_trim _ _ H))) as H1.
  destruct (collapseFrom_clean _ false H1) as [H2 H3].
  fold Regex.collapse in H2, H3.
  split; [apply all_trim, H2|]. split; [apply trim_idem|].
  unfold Str.trim. apply singleSpaced_trimEnd.
  apply (singleSpaced_trimStart _ false), H3.
Qed.

Lemma singleSpaced_no_double s : forall prev,
  singleSpaced prev s = true -> Str.includes s "  " = false.
Proof.
  induction s as [|c r IH]; intros prev H; [reflexivity|].
  simpl in H. cbn [Str.includes]. rewrite (IH (Char.isSpace c)).
  - rewrite orb_false_r. cbn [Str.isPrefix].
    destruct (Ascii.eqb_spec " " c) as [<-|]; [|reflexivity].
    simpl in H. apply andb_true_iff in H as [_ H].
    destruct r as [|d r']; [reflexivity|].
    destruct (Ascii.eqb_spec " " d) as [<-|]; [discriminate H | reflexivity].
  - destruct (Char.isSpace c); [apply andb_true_iff in H as [_ H]|]; exact H.
Qed.

(** *** A cleaned name that no removal changes is its own cleaned name *)

Lemma collapseFrom_id s : forall inRun,
  Str.all isCleanChar s = true -> singleSpaced inRun s = true ->
  Regex.collapseFrom inRun s = s.
Proof.
  induction s as [|c r IH]; intros inRun Hc Hs; simpl; [reflexivity|].
  simpl in Hc, Hs. apply andb_true_iff in Hc as [Hc Hr].
  destruct (Char.isSpace c) eqn:E.
  - apply andb_true_iff in Hs as [Hp Hs]. apply negb_true_iff in Hp. subst inRun.
    rewrite (IH true Hr Hs), (clean_char_space c Hc E). reflexivity.
  - rewrite (IH false Hr Hs). reflexivity.
Qed.

Lemma cleanSteps_fixed y :
  normalForm y -> removeSuffixes y = y -> cleanSteps y = y.
Proof.
  intros (Hc & Ht & Hs) Hr. unfold cleanSteps. rewrite Ht, Hr.
  unfold Regex.replacePunct. rewrite (all_map_id isCleanChar).
  - unfold Regex.collapse. rewrite (collapseFrom_id _ _ Hc Hs). exact Ht.
  - intros c H. rewrite (clean_char_class c H). reflexivity.
  - exact Hc.
Qed.

Lemma normalForm_lower y : normalForm y -> Str.toLowerCase y = y.
Proof. intros (Hc & _). apply (all_map_id isCleanChar); [apply clean_char_lower | exact Hc]. Qed.

(** *** The cache *)

Lemma cleanPure_normal name y : cleanPure name = Some y -> normalForm y.
Proof.
  destruct name as [n|]; [|discriminate]. unfold cleanPure.
  destruct (isBlank (Some n)); [discriminate|]. intros [= <-].
  apply cleanSteps_normal, all_toLowerCase.
Qed.

Lemma cleanCacheOk_empty : cleanCacheOk ∅.
Proof. intros k v H. rewrite lookup_empty in H. discriminate. Qed.

Lemma cleanCacheOk_insert c k :
  cleanCacheOk c -> cleanCacheOk (<[k := cleanSteps k]> c).
Proof.
  intros Hc k' v. rewrite lookup_insert. case_decide as E.
  - subst k'. intros [= <-]. reflexivity.
  - apply Hc.
Qed.

(** With a sound cache [cleanCompanyName] returns what [cleanPure] does,
    keeps the cache sound and leaves the other cache alone. *)
Lemma cleanCompanyName_run name st :
  cleanCacheOk (cleanNameCache st) ->
  exists st', cleanCompanyName name st = (cleanPure name, st')
    /\ cleanCacheOk (cleanNameCache st')
    /\ tickerCache st' = tickerCache st.
Proof.
  intros Hok. destruct name as [n|]; [|exists st; auto].
  unfold cleanCompanyName, cleanPure.
  destruct (isBlank (Some n)); [exists st; auto|].
  unfold mbind, M_bind, cleanNameGet, cleanNameSet, mret, M_ret.
  destruct (cleanNameCache st !! Str.toLowerCase n) as [v|] eqn:E.
  - exists st. rewrite (Hok _ _ E). auto.
  - eexists. split; [reflexivity|]. simpl. split; [|reflexivity].
    apply cleanCacheOk_insert, Hok.
Qed.

(** Whatever the cache holds, the result is [null] only through the guard. *)
Lemma cleanCompanyName_null name st :
  fst (cleanCompanyName name st) = None <-> isBlank name = true.
Proof.
  destruct name as [n|]; [|simpl; tauto]. unfold cleanCompanyName.
  destruct (isBlank (Some n)); [simpl; tauto|].
  unfold mbind, M_bind, cleanNameGet, cleanNameSet, mret, M_ret.
  destruct (cleanNameCache st !! Str.toLowerCase n); simpl; split; discriminate.
Qed.

(** *** Claims on the normalizer *)

(** C5, the claim fails as stated: removing ["&"] from ["l&td"] joins
    the letters around it into ["ltd"], a term that the next
    normalization removes.  Normalizing the normalized name gives [""],
    not ["ltd"]. *)
Lemma C5_not_idempotent :
  let first := cleanCompanyName (Some "l&td") emptyCaches in
  fst first = Some "ltd"
  /\ fst (cleanCompanyName (fst first) (snd first)) = Some ""
  /\ fst (cleanCompanyName (fst first) (snd first)) <> fst first.
Proof. vm_compute. repeat split. discriminate. Qed.

(** C5, amended: when the normalized name [y] of [x] is not empty and none
    of the three removals changes it, normalizing [y] gives [y] again. *)
Theorem C5_clean_fixed_point st x y st1 :
  cleanCacheOk (cleanNameCache st) ->
  cleanCompanyName (Some x) st = (Some y, st1) ->
  y <> "" ->
  removeSuffixes y = y ->
  fst (cleanCompanyName (Some y) st1) = Some y.
Proof.
  intros Hok Hrun Hne Hfix.
  destruct (cleanCompanyName_run (Some x) st Hok) as (st' & E & Hok' & _).
  rewrite Hrun in E. injection E as Hy <-.
  symmetry in Hy. pose proof (cleanPure_normal (Some x) y Hy) as Hn.
  destruct (cleanCompanyName_run (Some y) st1 Hok') as (st2 & E2 & _).
  rewrite E2. simpl. destruct Hn as (Hc & Ht & Hs).
  rewrite Ht. apply isEmpty_false in Hne. rewrite Hne. simpl.
  rewrite (normalForm_lower y), (cleanSteps_fixed y); auto; split; auto.
Qed.

Lemma C5_clean_fixed_point_witness :
  fst (cleanCompanyName (Some "a 1")
         (snd (cleanCompanyName (Some "A-1 Ltd") emptyCaches))) = Some "a 1".
Proof.
  apply (C5_clean_fixed_point emptyCaches "A-1 Ltd" "a 1").
  - exact cleanCacheOk_empty.
  - vm_compute. reflexivity.
  - discriminate.
  - vm_compute. reflexivity.
Defined.

(** C8, the claim fails as stated: the underscore belongs to [\w], so it is
    kept, and it is neither a letter, a digit nor white space. *)
Lemma C8_underscore_kept :
  fst (cleanCompanyName (Some "a_b") emptyCaches) = Some "a_b"
  /\ Str.all isAlnumOrSpace "a_b" = false.
Proof. split; vm_compute; reflexivity. Qed.

(** C8, amended: a normalized name is made of lowercase letters, digits,
    underscores and spaces only; it has no white space at either end and no
    two spaces in a row. *)
Theorem C8_clean_name_shape st x y :
  cleanCacheOk (cleanNameCache st) ->
  fst (cleanCompanyName (Some x) st) = Some y ->
  Str.all isCleanChar y = true
  /\ Str.trim y = y
  /\ Str.includes y "  " = false.
Proof.
  intros Hok Hrun.
  destruct (cleanCompanyName_run (Some x) st Hok) as (st' & E & _).
  rewrite E in Hrun. cbn [fst] in Hrun.
  destruct (cleanPure_normal (Some x) y Hrun) as (Hc & Ht & Hs).
  split; [exact Hc|]. split; [exact Ht|].
  exact (singleSpaced_no_double y false Hs).
Qed.

Lemma C8_clean_name_shape_witness :
  Str.all isCleanChar "authum investment infrastructure" = true
  /\ Str.trim "authum investment infrastructure" = "authum investment infrastructure"
  /\ Str.includes "authum investment infrastructure" "  " = false.
Proof.
  apply (C8_clean_name_shape emptyCaches "Authum Investment & Infrastructure Ltd").
  - exact cleanCacheOk_empty.
  - vm_compute. reflexivity.
Defined.

(** C10: [cleanCompanyName] returns [null] exactly when its argument is
    [null], empty or blank, that is made of the white space that [trim]
    strips, the no-break space included; an argument with a character that
    is not white space gives a string, and that string is empty when the
    removals and the replacement of punctuation leave nothing but white
    space. *)
Theorem C10_null_exactly_on_blank st name :
  cleanCacheOk (cleanNameCache st) ->
  (fst (cleanCompanyName name st) = None <->
     name = None \/
     exists s, name = Some s /\ (s = "" \/ Str.trim s = ""))
  /\ (forall s, name = Some s -> Str.all Char.isSpace s = false ->
        exists y, fst (cleanCompanyName name st) = Some y)
  /\ (forall s, name = Some s -> Str.all Char.isSpace s = false ->
        Str.all Char.isSpace
          (Regex.replacePunct (removeSuffixes (Str.trim (Str.toLowerCase s)))) = true ->
        fst (cleanCompanyName name st) = Some "").
Proof.
  intros Hok.
  assert (Hblank : forall s, Str.all Char.isSpace s = false -> isBlank (Some s) = false).
  { intros s Hs. simpl. apply orb_false_iff. split.
    - destruct s; [discriminate Hs | reflexivity].
    - apply isEmpty_false. intros E. apply trim_empty in E. congruence. }
  split; [rewrite cleanCompanyName_null; apply isBlank_spec|].
  destruct (cleanCompanyName_run name st Hok) as (st' & E & _). rewrite E. cbn [fst].
  split.
  - intros s -> Hs. unfold cleanPure. rewrite (Hblank s Hs). eauto.
  - intros s -> Hs Hall. unfold cleanPure. rewrite (Hblank s Hs). f_equal.
    unfold cleanSteps. apply trim_empty, collapseFrom_all_space, Hall.
Qed.

(** A name made of a no-break space and a tab is blank, and a name that is
    a suffix only is cleaned to the empty string. *)
Lemma C10_null_exactly_on_blank_witness :
  let blank := String "160" (String "009" "") in
  fst (cleanCompanyName (Some blank) emptyCaches) = None
  /\ fst (cleanCompanyName (Some "Ltd.") emptyCaches) = Some "".
Proof.
  intros blank. split.
  - apply (proj1 (C10_null_exactly_on_blank emptyCaches (Some blank) cleanCacheOk_empty)).
    right. exists blank. split; [reflexivity|]. right. vm_compute. reflexivity.
  - apply (C10_null_exactly_on_blank emptyCaches (Some "Ltd.") cleanCacheOk_empty)
      with (s := "Ltd."); vm_compute; reflexivity.
Defined.

(** ** The edit-distance ratio *)

Section Levenshtein.

Local Open Scope Z_scope.
Import FuzzyMatcher.

Lemma lev_nil_l y : lev [] y = Z.of_nat (length y).
Proof. destruct y; reflexivity. Qed.

Lemma lev_nil_r x : lev x [] = Z.of_nat (length x).
Proof. destruct x; reflexivity. Qed.

Lemma lev_cons a x b y :
  lev (a :: x) (b :: y) =
  min3 (lev x (b :: y) + 1) (lev (a :: x) y + 1) (lev x y + cost a b).
Proof. reflexivity. Qed.

Lemma cost_sym a b : cost a b = cost b a.
Proof. unfold cost. rewrite Ascii.eqb_sym. reflexivity. Qed.

Lemma cost_refl a : cost a a = 0.
Proof. unfold cost. rewrite Ascii.eqb_refl. reflexivity. Qed.

Lemma lev_sym x : forall y, lev x y = lev y x.
Proof.
  induction x as [|a x IHx]; intros y.
  - rewrite lev_nil_l, lev_nil_r. reflexivity.
  - induction y as [|b y IHy].
    + rewrite lev_nil_l, lev_nil_r. reflexivity.
    + rewrite !lev_cons, IHy, (IHx (b :: y)), (IHx y), (cost_sym a b).
      unfold min3. lia.
Qed.

Lemma lev_nonneg x : forall y, 0 <= lev x y.
Proof.
  induction x as [|a x IHx]; intros y.
  - rewrite lev_nil_l. lia.
  - induction y as [|b y IHy].
    + rewrite lev_nil_r. lia.
    + rewrite lev_cons. specialize (IHx (b :: y)) as H1. specialize (IHx y) as H2.
      unfold min3, cost. destruct (Ascii.eqb a b); lia.
Qed.

Lemma lev_refl x : lev x x = 0.
Proof.
  induction x as [|a x IH]; [reflexivity|].
  rewrite lev_cons, IH, cost_refl.
  pose proof (lev_nonneg x (a :: x)). pose proof (lev_nonneg (a :: x) x).
  unfold min3. lia.
Qed.

(** *** The matrix holds the distances between prefixes *)

Lemma firstRow_tail s2 : forall q,
  List.map Z.of_nat (seq (S (length q)) (String.length s2)) = specRow [] q s2.
Proof.
  induction s2 as [|d r IH]; intros q; [reflexivity|].
  cbn [String.length seq List.map specRow]. rewrite lev_nil_l. f_equal.
  exact (IH (d :: q)).
Qed.

Lemma firstRow_spec s2 : firstRow s2 = lev [] [] :: specRow [] [] s2.
Proof. unfold firstRow. cbn [seq List.map]. f_equal. exact (firstRow_tail s2 []). Qed.

Lemma fillRow_spec c p s2 : forall q,
  fillRow c s2 (lev p q :: specRow p q s2) (lev (c :: p) q) = specRow (c :: p) q s2.
Proof.
  induction s2 as [|d r IH]; intros q; [reflexivity|].
  cbn [specRow fillRow]. rewrite <- lev_cons. f_equal. exact (IH (d :: q)).
Qed.

Lemma fillRows_spec s2 s1 : forall p,
  fillRows s1 s2 (Z.of_nat (S (length p))) (lev p [] :: specRow p [] s2)
  = specRows s1 p s2.
Proof.
  induction s1 as [|c r IH]; intros p; [reflexivity|].
  cbn [fillRows specRows].
  assert (E : Z.of_nat (S (length p)) = lev (c :: p) [])
    by (rewrite lev_nil_r; reflexivity).
  rewrite E, fillRow_spec. f_equal.
  replace (lev (c :: p) [] + 1) with (Z.of_nat (S (length (c :: p))))
    by (rewrite lev_nil_r; cbn [length]; lia).
  exact (IH (c :: p)).
Qed.

Lemma nth_specRows s2 s1 : forall p,
  nth (String.length s1) ((lev p [] :: specRow p [] s2) :: specRows s1 p s2) []
  = lev (revOnto s1 p) [] :: specRow (revOnto s1 p) [] s2.
Proof.
  induction s1 as [|c r IH]; intros p; [reflexivity|].
  cbn [String.length specRows revOnto]. exact (IH (c :: p)).
Qed.

Lemma nth_specRow p s2 : forall q,
  nth (String.length s2) (lev p q :: specRow p q s2) 0 = lev p (revOnto s2 q).
Proof.
  induction s2 as [|d r IH]; intros q; [reflexivity|].
  cbn [String.length specRow revOnto]. exact (IH (d :: q)).
Qed.

Lemma distance_lev s1 s2 : distance s1 s2 = lev (revOnto s1 []) (revOnto s2 []).
Proof.
  unfold distance, matrix. rewrite firstRow_spec.
  pose proof (fillRows_spec s2 s1 []) as H.
  change (Z.of_nat (S (length (@nil ascii)))) with 1 in H.
  rewrite H, nth_specRows. apply nth_specRow.
Qed.

Lemma distance_sym s1 s2 : distance s1 s2 = distance s2 s1.
Proof. rewrite !distance_lev. apply lev_sym. Qed.

Lemma distance_refl s : distance s s = 0.
Proof. rewrite distance_lev. apply lev_refl. Qed.

End Levenshtein.

(** ** Division of equal doubles *)

Section Float64Facts.

Local Open Scope Z_scope.
Import Float64.

Lemma digits2_size p : digits2_pos p = Pos.size p.
Proof. induction p as [p IH|p IH|]; simpl; rewrite ?IH; reflexivity. Qed.

Lemma digits2_iter p k :
  digits2_pos (Pos.iter xO p k) = (digits2_pos p + k)%positive.
Proof.
  induction k as [|k IH] using Pos.peano_ind.
  - simpl. lia.
  - rewrite Pos.iter_succ. simpl. rewrite IH. lia.
Qed.

Lemma digits2_bound p : Zpos p < 2 ^ 53 -> Zpos (digits2_pos p) <= 53.
Proof.
  intros H. rewrite digits2_size.
  destruct (Z_le_gt_dec (Zpos (Pos.size p)) 53) as [Hle|Hgt]; [exact Hle|].
  exfalso. pose proof (Pos.size_le p) as Hs.
  assert (2 ^ 54 <= 2 ^ Zpos (Pos.size p)) by (apply Z.pow_le_mono_r; lia).
  assert (Zpos (2 ^ Pos.size p) = 2 ^ Zpos (Pos.size p)) by apply Pos2Z.inj_pow.
  assert (Zpos (2 ^ Pos.size p) <= Zpos p~0) by exact Hs.
  change (2 ^ 54) with (2 * 2 ^ 53) in *. lia.
Qed.

(** A mantissa that already has its canonical exponent is not rounded. *)
Lemma binary_round_aux_canonical m e :
  fexp prec emax (Zpos (digits2_pos m) + e) = e ->
  e <= emax - prec ->
  binary_round_aux prec emax false (Zpos m) e loc_Exact = S754_finite false m e.
Proof.
  intros Hc He. unfold binary_round_aux, shr_fexp. cbn [Zdigits2 shr_record_of_loc].
  rewrite Hc, Z.sub_diag. cbn [shr shr_m loc_of_shr_record round_nearest_even Zdigits2].
  rewrite Hc, Z.sub_diag. cbn [shr shr_m shr_record_of_loc].
  apply Z.leb_le in He. rewrite He. reflexivity.
Qed.

(** The Number of a positive integer below [2^53] is finite. *)
Lemma ofZ_finite n :
  0 < n < 2 ^ 53 -> exists m e, ofZ n = S754_finite false m e.
Proof.
  intros [Hpos Hlt]. destruct n as [|p|p]; try lia.
  pose proof (digits2_bound p Hlt) as Hd.
  unfold ofZ, binary_normalize, binary_round.
  assert (Hf : fexp prec emax (Zpos (digits2_pos p) + 0) = Zpos (digits2_pos p) - 53)
    by (unfold fexp, emin, prec, emax; lia).
  rewrite Hf. unfold shl_align.
  destruct (Zpos (digits2_pos p) - 53 - 0) as [|k|k] eqn:Ek; try lia.
  - exists p, 0. apply binary_round_aux_canonical; [|unfold emax, prec; lia].
    rewrite Hf. lia.
  - eexists _, _. apply binary_round_aux_canonical; [|unfold emax, prec; lia].
    rewrite digits2_iter. unfold fexp, emin, prec, emax. lia.
Qed.

(** [x / x] is [1] for a finite [x]. *)
Lemma div_self s m e :
  div (S754_finite s m e) (S754_finite s m e) = S754_finite false (2 ^ 52) (-52).
Proof.
  unfold div, SFdiv, SFdiv_core_binary. cbn [Zdigits2].
  replace (Zpos (digits2_pos m) + e - (Zpos (digits2_pos m) + e)) with 0 by lia.
  rewrite Z.sub_diag.
  change (Z.min (fexp prec emax 0) 0) with (-53).
  change (0 - -53) with 53.
  rewrite Z.shiftl_mul_pow2 by lia.
  assert (Hq : (Zpos m * 2 ^ 53) / Zpos m = 2 ^ 53)
    by (rewrite Z.mul_comm; apply Z.div_mul; lia).
  assert (Hr : (Zpos m * 2 ^ 53) mod Zpos m = 0)
    by (rewrite Z.mul_comm; apply Z.mod_mul; lia).
  unfold Z.div, Z.modulo in Hq, Hr.
  destruct (Z.div_eucl (Zpos m * 2 ^ 53) (Zpos m)) as [q r]. subst q r.
  rewrite xorb_nilpotent.
  assert (Hloc : new_location (Zpos m) 0 = loc_Exact)
    by (unfold new_location, new_location_even, new_location_odd;
        destruct (Z.even (Zpos m)); reflexivity).
  rewrite Hloc. vm_compute. reflexivity.
Qed.

Lemma percent_full n : 0 < n < 2 ^ 53 -> FuzzyMatcher.percent 0 n = 100.
Proof.
  intros Hn. unfold FuzzyMatcher.percent. rewrite Z.sub_0_r.
  destruct (ofZ_finite n Hn) as (m & e & ->). rewrite div_self.
  vm_compute. reflexivity.
Qed.

End Float64Facts.

(** C9: [ratio(a, a)] is 100 for a non-empty [a], and [ratio] is symmetric.
    The first part is for strings of fewer than [2^53] code units, the bound
    that ECMAScript puts on the length of every string and under which a
    length is an exact Number. *)
Theorem C9_ratio_self_and_symmetry :
  (forall a, a <> "" -> (Str.len a < 2 ^ 53)%Z -> FuzzyMatcher.ratio a a = 100%Z)
  /\ (forall a b, FuzzyMatcher.ratio a b = FuzzyMatcher.ratio b a).
Proof.
  split.
  - intros a Ha Hlen. unfold FuzzyMatcher.ratio.
    apply isEmpty_false in Ha. rewrite Ha. cbn [orb].
    rewrite distance_refl, Z.max_id. apply percent_full.
    split; [|exact Hlen]. unfold Str.len. destruct a; [discriminate Ha|].
    cbn [String.length]. lia.
  - intros a b. unfold FuzzyMatcher.ratio.
    rewrite (orb_comm (Str.isEmpty a)), (distance_sym a b), (Z.max_comm (Str.len a)).
    reflexivity.
Qed.

Lemma C9_ratio_self_and_symmetry_witness :
  FuzzyMatcher.ratio "computer age management services"
    "computer age management services" = 100%Z.
Proof.
  apply (proj1 C9_ratio_self_and_symmetry).
  - discriminate.
  - vm_compute. reflexivity.
Defined.

(** ** The scorer *)

Section ScorerFacts.

Local Open Scope Z_scope.
Import Scorer.

(** The loop over the candidate's words counts one match exactly when
    one of its two tests holds for some word. *)
Lemma abbreviationLoop_matched inputWord keyWords m s :
  fst (abbreviationLoop inputWord keyWords (m, s)) =
  if existsb
       (fun keyWord =>
          ((3 <=? Str.len inputWord) && Str.startsWith keyWord inputWord)
          || ((3 <=? Str.len keyWord) && Str.startsWith inputWord keyWord))
       keyWords
  then m + 1 else m.
Proof.
  induction keyWords as [|k rest IH]; [reflexivity|].
  cbn [abbreviationLoop existsb].
  destruct ((3 <=? Str.len inputWord) && Str.startsWith k inputWord); [reflexivity|].
  destruct ((3 <=? Str.len k) && Str.startsWith inputWord k); [reflexivity|].
  exact IH.
Qed.

Lemma wordStep_matched keyWords m s inputWord :
  fst (wordStep keyWords (m, s) inputWord) =
  if wordMatched keyWords inputWord then m + 1 else m.
Proof.
  unfold wordStep, wordMatched.
  destruct (Str.member inputWord keyWords); [reflexivity|].
  apply abbreviationLoop_matched.
Qed.

(** [matchedWords] is the number of matched input words. *)
Lemma wordOverlap_matched inputWords keyWords :
  fst (wordOverlap inputWords keyWords) =
  Z.of_nat (length (List.filter (wordMatched keyWords) inputWords)).
Proof.
  unfold wordOverlap.
  assert (H : forall ws m s,
    fst (fold_left (wordStep keyWords) ws (m, s)) =
    m + Z.of_nat (length (List.filter (wordMatched keyWords) ws))).
  { induction ws as [|w ws IH]; intros m s; cbn [fold_left List.filter].
    - cbn [length fst]. lia.
    - pose proof (wordStep_matched keyWords m s w) as Hw.
      destruct (wordStep keyWords (m, s) w) as [m' s']. cbn [fst] in Hw.
      rewrite IH, Hw. destruct (wordMatched keyWords w); cbn [length]; lia. }
  rewrite H. lia.
Qed.

(** [significantMatches] counts matched input words longer than 3
    characters only, and never more than there are. *)
Lemma abbreviationLoop_significant inputWord keyWords m s :
  snd (abbreviationLoop inputWord keyWords (m, s)) = s
  \/ (snd (abbreviationLoop inputWord keyWords (m, s)) = s + 1
      /\ wordMatched keyWords inputWord = true /\ 3 < Str.len inputWord).
Proof.
  unfold wordMatched.
  induction keyWords as [|k rest IH]; [left; reflexivity|].
  cbn [abbreviationLoop existsb].
  destruct ((3 <=? Str.len inputWord) && Str.startsWith k inputWord) eqn:E2.
  - destruct (3 <? Str.len inputWord) eqn:E; [|left; reflexivity].
    right. apply Z.ltb_lt in E. rewrite !orb_true_r. auto.
  - destruct ((3 <=? Str.len k) && Str.startsWith inputWord k); [left; reflexivity|].
    destruct IH as [IH | (IH & Hm & Hl)]; [left; exact IH|].
    right. split; [exact IH|]. split; [|exact Hl].
    unfold Str.member in *. cbn [existsb orb].
    apply orb_true_iff in Hm as [Hm | Hm]; rewrite Hm, ?orb_true_r; reflexivity.
Qed.

Lemma wordOverlap_significant_le inputWords keyWords :
  snd (wordOverlap inputWords keyWords)
  <= Z.of_nat (length (significantMatched inputWords keyWords)).
Proof.
  unfold wordOverlap, significantMatched.
  assert (H : forall ws m s,
    snd (fold_left (wordStep keyWords) ws (m, s)) <=
    s + Z.of_nat (length (List.filter
          (fun w => wordMatched keyWords w && (3 <? Str.len w)) ws))).
  { induction ws as [|w ws IH]; intros m s; cbn [fold_left List.filter].
    - cbn [length snd]. lia.
    - assert (Hw : snd (wordStep keyWords (m, s) w) = s
                \/ (snd (wordStep keyWords (m, s) w) = s + 1
                    /\ wordMatched keyWords w = true /\ 3 < Str.len w)).
      { unfold wordStep. destruct (Str.member w keyWords) eqn:Em.
        - destruct (3 <? Str.len w) eqn:E; [|left; reflexivity].
          right. apply Z.ltb_lt in E. unfold wordMatched. rewrite Em. auto.
        - apply abbreviationLoop_significant. }
      destruct (wordStep keyWords (m, s) w) as [m' s']. cbn [snd] in Hw.
      specialize (IH m' s').
      destruct Hw as [-> | (-> & Hm & Hl)].
      + destruct (wordMatched keyWords w && (3 <? Str.len w)); cbn [length]; lia.
      + apply Z.ltb_lt in Hl. rewrite Hm, Hl. cbn [andb length]. lia. }
  specialize (H inputWords 0 0). lia.
Qed.

End ScorerFacts.

(** C6, the claim fails as stated: the guard counts all the words of the
    candidate, not the words longer than 2 characters.  The candidate
    ["abcd x"] has two words and one of them is longer than 2, so the
    acronym ["A"] is built, and the single input word ["abcd"] is
    penalised by 15 for not matching it. *)
Lemma C6_acronym_with_one_long_word :
  let cleanName := "abcd" in
  let cleanKey := "abcd x" in
  let inputWords := Str.split cleanName in
  length (List.filter (fun word => (2 <? Str.len word)%Z) (Str.split cleanKey)) = 1%nat
  /\ Scorer.acronymOf (Str.split cleanKey) = "A"
  /\ Scorer.score cleanName inputWords cleanKey
     = (Scorer.scoreBeforeAcronym cleanName inputWords cleanKey - 15)%Z
  /\ Scorer.score cleanName inputWords cleanKey
     <> Scorer.scoreBeforeAcronym cleanName inputWords cleanKey.
Proof. vm_compute. repeat split. discriminate. Qed.

(** C6, amended: when the candidate's cleaned name has fewer than 2 words,
    of any length, no acronym adjustment is made: the score is the one of
    steps 1 to 7. *)
Theorem C6_no_acronym_for_single_word cleanName inputWords cleanKey :
  (length (Str.split cleanKey) < 2)%nat ->
  Scorer.score cleanName inputWords cleanKey
  = Scorer.scoreBeforeAcronym cleanName inputWords cleanKey.
Proof.
  intros H. unfold Scorer.score, Scorer.acronymAdjust.
  destruct (2 <=? Z.of_nat (length (Str.split cleanKey)))%Z eqn:E; [|reflexivity].
  apply Z.leb_le in E. lia.
Qed.

Lemma C6_no_acronym_for_single_word_witness :
  Scorer.score "cams" (Str.split "cams") "camshafts"
  = Scorer.scoreBeforeAcronym "cams" (Str.split "cams") "camshafts".
Proof.
  apply (C6_no_acronym_for_single_word "cams" (Str.split "cams") "camshafts").
  vm_compute. lia.
Defined.

(** C7, the code at the failing input: the input word ["abcde"] is matched
    by the third test (the candidate's word ["abc"] is a prefix of it) and
    is longer than 3 characters, yet [significantMatches] stays 0. *)
Lemma C7_prefix_match_not_significant :
  let inputWords := Str.split "abcde" in
  let keyWords := Str.split "abc" in
  Scorer.wordOverlap inputWords keyWords = (1, 0)%Z
  /\ significantMatched inputWords keyWords = ["abcde"]
  /\ snd (Scorer.wordOverlap inputWords keyWords)
     <> Z.of_nat (length (significantMatched inputWords keyWords)).
Proof. vm_compute. repeat split. discriminate. Qed.

(** ** The loops of the resolver *)

Section Loops.

Local Open Scope Z_scope.

Variables (cleanName : string) (inputWords : list string).

Lemma exactLoop_run entries : forall st,
  cleanCacheOk (cleanNameCache st) ->
  exists st', exactLoop cleanName entries st = (exactPure cleanName entries, st')
    /\ cleanCacheOk (cleanNameCache st')
    /\ tickerCache st' = tickerCache st.
Proof.
  induction entries as [|[key ticker] rest IH]; intros st Hok.
  - exists st. auto.
  - cbn [exactLoop exactPure]. unfold mbind, M_bind.
    destruct (cleanCompanyName_run (Some key) st Hok) as (st1 & E & Hok1 & Ht1).
    rewrite E. case_bool_decide.
    + exists st1. auto.
    + destruct (IH st1 Hok1) as (st' & E' & Hok' & Ht').
      exists st'. rewrite E', Ht', Ht1. auto.
Qed.

Lemma fuzzyLoop_run entries : forall best st,
  cleanCacheOk (cleanNameCache st) ->
  exists st',
    fuzzyLoop cleanName inputWords entries best st
    = (fuzzyPure cleanName inputWords entries best, st')
    /\ cleanCacheOk (cleanNameCache st')
    /\ tickerCache st' = tickerCache st.
Proof.
  induction entries as [|[key ticker] rest IH]; intros best st Hok.
  - exists st. auto.
  - cbn [fuzzyLoop fuzzyPure]. unfold mbind, M_bind, candidateScore.
    destruct (cleanCompanyName_run (Some key) st Hok) as (st1 & E & Hok1 & Ht1).
    rewrite E. rewrite <- Ht1.
    destruct (cleanPure (Some key)) as [ck|]; [|apply IH, Hok1].
    destruct (Str.isEmpty ck); [apply IH, Hok1|].
    destruct ((snd best <? Scorer.score cleanName inputWords ck)
              && (70 <=? Scorer.score cleanName inputWords ck));
      apply IH, Hok1.
Qed.

Local Abbreviation scoreOf := (candidateScore cleanName inputWords).
Local Abbreviation scan := (fuzzyPure cleanName inputWords).

(** Entries that do not beat the current best leave it in place. *)
Lemma fuzzyPure_stable entries b bs :
  (forall k t s, In (k, t) entries -> scoreOf k = Some s -> s <= bs \/ s < 70) ->
  scan entries (b, bs) = (b, bs).
Proof.
  induction entries as [|[key ticker] rest IH]; intros H; [reflexivity|].
  cbn [fuzzyPure]. destruct (scoreOf key) as [s|] eqn:E.
  - destruct (H key ticker s (or_introl eq_refl) E) as [Hs | Hs];
      cbn [snd];
      [replace (bs <? s) with false by (symmetry; apply Z.ltb_ge; lia)
      |replace (70 <=? s) with false by (symmetry; apply Z.leb_gt; lia);
       rewrite andb_false_r];
      cbn [andb]; apply IH; intros k t s' Hin; apply (H k t s'); right; exact Hin.
  - apply IH. intros k t s' Hin. apply (H k t s'). right. exact Hin.
Qed.

(** The best entry after the scan: either the one before it, when no
    entry beat it, or the first entry with the highest score. *)
Lemma fuzzyPure_spec entries : forall b bs b' bs',
  scan entries (b, bs) = (b', bs') ->
  (b' = b /\ bs' = bs /\
   forall k t s, In (k, t) entries -> scoreOf k = Some s -> s <= bs \/ s < 70)
  \/
  (exists pre key ticker post,
     entries = (pre ++ (key, ticker) :: post)%list
     /\ b' = Some key /\ scoreOf key = Some bs'
     /\ 70 <= bs' /\ bs < bs'
     /\ (forall k t s, In (k, t) pre -> scoreOf k = Some s -> s < bs')
     /\ (forall k t s, In (k, t) post -> scoreOf k = Some s -> s <= bs')).
Proof.
  induction entries as [|[key ticker] rest IH]; intros b bs b' bs' H.
  - injection H as <- <-. left. repeat split; auto. intros k t s [].
  - cbn [fuzzyPure] in H. cbn [snd] in H.
    destruct (scoreOf key) as [s|] eqn:E.
    + destruct ((bs <? s) && (70 <=? s)) eqn:C.
      * apply andb_true_iff in C as [C1 C2].
        apply Z.ltb_lt in C1. apply Z.leb_le in C2.
        right. destruct (IH _ _ _ _ H) as
          [(-> & -> & Hall) | (pre & k2 & t2 & post & -> & -> & Hs & H70 & Hgt & Hpre & Hpost)].
        -- exists [], key, ticker, rest. repeat split; auto.
           ++ intros k t s' [].
           ++ intros k t s' Hin Hk. destruct (Hall k t s' Hin Hk); lia.
        -- exists ((key, ticker) :: pre), k2, t2, post. repeat split; auto; try lia.
           intros k t s' [[= <- <-] | Hin] Hk; [|eauto].
           rewrite E in Hk. injection Hk as <-. lia.
      * assert (Hno : s <= bs \/ s < 70).
        { apply andb_false_iff in C as [C | C];
            [apply Z.ltb_ge in C | apply Z.leb_gt in C]; lia. }
        destruct (IH _ _ _ _ H) as
          [(-> & -> & Hall) | (pre & k2 & t2 & post & -> & -> & Hs & H70 & Hgt & Hpre & Hpost)].
        -- left. repeat split; auto.
           intros k t s' [[= <- <-] | Hin] Hk; [|eauto].
           rewrite E in Hk. injection Hk as <-. exact Hno.
        -- right. exists ((key, ticker) :: pre), k2, t2, post. repeat split; auto.
           intros k t s' [[= <- <-] | Hin] Hk; [|eauto].
           rewrite E in Hk. injection Hk as <-. lia.
    + destruct (IH _ _ _ _ H) as
        [(-> & -> & Hall) | (pre & k2 & t2 & post & -> & -> & Hs & H70 & Hgt & Hpre & Hpost)].
      * left. repeat split; auto.
        intros k t s' [[= <- <-] | Hin] Hk; [congruence | eauto].
      * right. exists ((key, ticker) :: pre), k2, t2, post. repeat split; auto.
        intros k t s' [[= <- <-] | Hin] Hk; [congruence | eauto].
Qed.

Lemma fuzzyPure_app pre post best :
  scan (pre ++ post)%list best = scan post (scan pre best).
Proof.
  revert best. induction pre as [|[key ticker] pre IH]; intros best; [reflexivity|].
  cbn [app fuzzyPure]. destruct (scoreOf key) as [s|]; [|apply IH].
  destruct ((snd best <? s) && (70 <=? s)); apply IH.
Qed.

End Loops.

(** ** The resolver *)

Lemma append_length s t : String.length (s ++ t) = (String.length s + String.length t)%nat.
Proof.
  induction s as [|c s IH]; [reflexivity|].
  change (String c s ++ t) with (String c (s ++ t)).
  cbn [String.length]. rewrite IH. reflexivity.
Qed.

Lemma append_inv_tail t : forall s1 s2, s1 ++ t = s2 ++ t -> s1 = s2.
Proof.
  induction s1 as [|c s1 IH]; intros [|c2 s2] H.
  - reflexivity.
  - apply (f_equal String.length) in H. rewrite !append_length in H.
    cbn [String.length] in H. lia.
  - apply (f_equal String.length) in H. rewrite !append_length in H.
    cbn [String.length] in H. lia.
  - change (String c (s1 ++ t) = String c2 (s2 ++ t)) in H.
    injection H as -> H. f_equal. exact (IH s2 H).
Qed.

Lemma cacheKeyOf_inj tickerDict cn1 cn2 :
  cacheKeyOf cn1 tickerDict = cacheKeyOf cn2 tickerDict -> cn1 = cn2.
Proof. apply append_inv_tail. Qed.

Lemma cachesOk_empty tickerDict : cachesOk tickerDict emptyCaches.
Proof.
  split; [exact cleanCacheOk_empty|].
  intros cn v _ Hk. cbn [tickerCache emptyCaches] in Hk.
  rewrite lookup_empty in Hk. discriminate Hk.
Qed.

Lemma tickerSet_ok tickerDict cleanName st :
  cachesOk tickerDict st ->
  cachesOk tickerDict
    (snd (tickerSet (cacheKeyOf cleanName tickerDict)
            (resolveClean cleanName tickerDict) st)).
Proof.
  intros [Hc Ht]. split; [exact Hc|]. intros cn v Hn. cbn [tickerSet snd tickerCache].
  rewrite lookup_insert. case_decide as E.
  - apply cacheKeyOf_inj in E. subst cn. intros [= <-]. reflexivity.
  - apply Ht, Hn.
Qed.

(** With sound caches [findTicker] returns what [resolve] does and keeps
    the caches sound. *)
Lemma findTicker_run name tickerDict st :
  cachesOk tickerDict st ->
  exists st', findTicker name tickerDict st = (resolve name tickerDict, st')
    /\ cachesOk tickerDict st'.
Proof.
  intros Hok. pose proof Hok as [Hc Ht]. unfold findTicker, resolve.
  destruct (sentinel name); [exists st; auto|].
  unfold mbind, M_bind.
  destruct (cleanCompanyName_run name st Hc) as (st1 & E1 & Hc1 & Ht1). rewrite E1.
  assert (Hok1 : cachesOk tickerDict st1) by (split; [exact Hc1 | rewrite Ht1; exact Ht]).
  destruct (cleanPure name) as [cn|] eqn:Ecn; [|exists st1; auto].
  pose proof (cleanPure_normal name cn Ecn) as Hn.
  destruct (Str.isEmpty cn || (Str.len cn <=? 2)%Z); [exists st1; auto|].
  unfold tickerGet.
  destruct (tickerCache st1 !! cacheKeyOf cn tickerDict) as [v|] eqn:Ek.
  { exists st1. rewrite (proj2 Hok1 cn v Hn Ek). auto. }
  destruct (exactLoop_run cn tickerDict st1 Hc1) as (st2 & E2 & Hc2 & Ht2). rewrite E2.
  assert (Hok2 : cachesOk tickerDict st2)
    by (split; [exact Hc2 | rewrite Ht2; exact (proj2 Hok1)]).
  pose proof (tickerSet_ok tickerDict cn) as Hset.
  unfold resolveClean in *.
  destruct (exactPure cn tickerDict) as [t|].
  { eexists. split; [reflexivity | exact (Hset st2 Hok2)]. }
  destruct (if Nat.eqb (length (Str.split cn)) 1 && (3 <=? Str.len cn)%Z
            then directLoop cn tickerDict else None) as [t|].
  { eexists. split; [reflexivity | exact (Hset st2 Hok2)]. }
  destruct (fuzzyLoop_run cn (Str.split cn) tickerDict (None, 0%Z) st2 Hc2)
    as (st3 & E3 & Hc3 & Ht3). rewrite E3.
  assert (Hok3 : cachesOk tickerDict st3)
    by (split; [exact Hc3 | rewrite Ht3; exact (proj2 Hok2)]).
  destruct (truthy (fst (fuzzyPure cn (Str.split cn) tickerDict (None, 0%Z))));
    eexists; (split; [reflexivity | exact (Hset st3 Hok3)]).
Qed.

(** *** The cache key tells the cleaned name and the full names apart *)

Lemma append_cons c s t : String c s ++ t = String c (s ++ t).
Proof. reflexivity. Qed.

Lemma append_nil s : "" ++ s = s.
Proof. reflexivity. Qed.

Lemma append_assoc s t u : (s ++ t) ++ u = s ++ (t ++ u).
Proof.
  induction s as [|c s IH]; [reflexivity|].
  rewrite !append_cons, IH. reflexivity.
Qed.

Lemma unescape_quoteChar c tail t rest :
  unescape tail = Some (t, rest) ->
  unescape (JSON.quoteChar c ++ tail) = Some (String c t, rest).
Proof.
  intros H. ascii_cases c; vm_compute JSON.quoteChar;
    rewrite ?append_cons, append_nil; cbn; rewrite H; reflexivity.
Qed.

Lemma unescape_escape s rest :
  unescape (JSON.escape s ++ String JSON.dquote rest) = Some (s, rest).
Proof.
  induction s as [|c s IH].
  - cbn [JSON.escape]. rewrite append_nil. reflexivity.
  - cbn [JSON.escape]. rewrite append_assoc. apply unescape_quoteChar, IH.
Qed.

Lemma quote_inj s1 s2 rest1 rest2 :
  JSON.quote s1 ++ rest1 = JSON.quote s2 ++ rest2 -> s1 = s2 /\ rest1 = rest2.
Proof.
  unfold JSON.quote. rewrite !append_cons, !append_assoc, !append_cons, !append_nil.
  intros [= H]. apply (f_equal unescape) in H.
  rewrite !unescape_escape in H. injection H as -> ->. auto.
Qed.

(** What [JSON.stringify] writes after the opening bracket. *)
Lemma concat_cons x y l :
  String.concat "," (x :: y :: l) = x ++ "," ++ String.concat "," (y :: l).
Proof. reflexivity. Qed.

Lemma stringify_body_inj l1 : forall l2,
  String.concat "," (List.map JSON.quote l1) ++ "]"
  = String.concat "," (List.map JSON.quote l2) ++ "]" ->
  l1 = l2.
Proof.
  induction l1 as [|x1 [|y1 r1] IH]; intros [|x2 [|y2 r2]] H;
    cbn [List.map] in H; rewrite ?concat_cons, ?append_assoc in H;
    cbn [String.concat] in H; rewrite ?append_nil in H.
  - reflexivity.
  - discriminate H.
  - discriminate H.
  - discriminate H.
  - apply quote_inj in H as [-> _]. reflexivity.
  - apply quote_inj in H as [_ H]. discriminate H.
  - discriminate H.
  - apply quote_inj in H as [_ H]. discriminate H.
  - apply quote_inj in H as [-> H]. rewrite !append_cons, !append_nil in H.
    injection H as H. f_equal. apply IH. cbn [List.map]. exact H.
Qed.

Lemma stringify_inj l1 l2 : JSON.stringify l1 = JSON.stringify l2 -> l1 = l2.
Proof.
  unfold JSON.stringify. rewrite !append_cons, !append_nil. intros [= H].
  exact (stringify_body_inj l1 l2 H).
Qed.

Lemma clean_char_not_colon c : isCleanChar c = true -> Ascii.eqb c ":" = false.
Proof. ascii_cases c; vm_compute; intros H; try reflexivity; discriminate H. Qed.

Lemma name_colon_inj a1 : forall a2 j1 j2,
  Str.all isCleanChar a1 = true -> Str.all isCleanChar a2 = true ->
  a1 ++ String ":" j1 = a2 ++ String ":" j2 -> a1 = a2 /\ j1 = j2.
Proof.
  induction a1 as [|c a1 IH]; intros [|c2 a2] j1 j2 H1 H2 H;
    rewrite ?append_cons, ?append_nil in H.
  - injection H as ->. auto.
  - injection H as <- _. cbn in H2. discriminate H2.
  - injection H as -> _. cbn in H1. discriminate H1.
  - injection H as -> H. cbn [Str.all] in H1, H2.
    apply andb_true_iff in H1 as [_ H1]. apply andb_true_iff in H2 as [_ H2].
    destruct (IH a2 j1 j2 H1 H2 H) as [-> ->]. auto.
Qed.

(** Two keys are equal only for the same cleaned name and the same full
    names. *)
Lemma cacheKeyOf_inj2 cn1 cn2 d1 d2 :
  normalForm cn1 -> normalForm cn2 ->
  cacheKeyOf cn1 d1 = cacheKeyOf cn2 d2 ->
  cn1 = cn2 /\ sortedNames d1 = sortedNames d2.
Proof.
  intros (H1 & _) (H2 & _) H. unfold cacheKeyOf in H.
  rewrite !append_cons, !append_nil in H.
  destruct (name_colon_inj _ _ _ _ H1 H2 H) as [-> Hj].
  split; [reflexivity | exact (stringify_inj _ _ Hj)].
Qed.

(** *** Calls over other mappings *)

(** Whatever the resolution cache holds, a call keeps the cache of cleaned
    names sound and writes at most one entry, under the key of its own
    mapping and of a cleaned name. *)
Lemma findTicker_frame name tickerDict st :
  cleanCacheOk (cleanNameCache st) ->
  cleanCacheOk (cleanNameCache (snd (findTicker name tickerDict st)))
  /\ (tickerCache (snd (findTicker name tickerDict st)) = tickerCache st
      \/ exists cn v, normalForm cn /\
           tickerCache (snd (findTicker name tickerDict st))
           = <[cacheKeyOf cn tickerDict := v]> (tickerCache st)).
Proof.
  intros Hc. unfold findTicker.
  destruct (sentinel name); [split; [exact Hc | left; reflexivity]|].
  unfold mbind, M_bind.
  destruct (cleanCompanyName_run name st Hc) as (st1 & E1 & Hc1 & Ht1). rewrite E1.
  destruct (cleanPure name) as [cn|] eqn:Ecn;
    [|split; [exact Hc1 | left; exact Ht1]].
  pose proof (cleanPure_normal name cn Ecn) as Hn.
  destruct (Str.isEmpty cn || (Str.len cn <=? 2)%Z);
    [split; [exact Hc1 | left; exact Ht1]|].
  unfold tickerGet.
  destruct (tickerCache st1 !! cacheKeyOf cn tickerDict) as [v|];
    [split; [exact Hc1 | left; exact Ht1]|].
  destruct (exactLoop_run cn tickerDict st1 Hc1) as (st2 & E2 & Hc2 & Ht2). rewrite E2.
  destruct (exactPure cn tickerDict) as [t|].
  { split; [exact Hc2|]. right. exists cn, t. split; [exact Hn|].
    cbn [tickerSet snd tickerCache]. rewrite Ht2, Ht1. reflexivity. }
  destruct (if Nat.eqb (length (Str.split cn)) 1 && (3 <=? Str.len cn)%Z
            then directLoop cn tickerDict else None) as [t|].
  { split; [exact Hc2|]. right. exists cn, t. split; [exact Hn|].
    cbn [tickerSet snd tickerCache]. rewrite Ht2, Ht1. reflexivity. }
  destruct (fuzzyLoop_run cn (Str.split cn) tickerDict (None, 0%Z) st2 Hc2)
    as (st3 & E3 & Hc3 & Ht3). rewrite E3.
  destruct (truthy (fst (fuzzyPure cn (Str.split cn) tickerDict (None, 0%Z))));
    (split; [exact Hc3|]); right; eexists cn, _; (split; [exact Hn|]);
    cbn [tickerSet snd tickerCache]; rewrite Ht3, Ht2, Ht1; reflexivity.
Qed.

Lemma findTicker_other name tickerDict otherDict st :
  cachesOk tickerDict st ->
  sortedNames otherDict <> sortedNames tickerDict ->
  cachesOk tickerDict (snd (findTicker name otherDict st)).
Proof.
  intros [Hc Ht] Hne.
  destruct (findTicker_frame name otherDict st Hc) as (Hc' & [E | (cn & v & Hn & E)]);
    (split; [exact Hc'|]); rewrite E; [exact Ht|].
  intros cn0 v0 Hn0. rewrite lookup_insert. case_decide as Ek.
  - apply cacheKeyOf_inj2 in Ek as [_ Ek]; [contradiction | exact Hn | exact Hn0].
  - apply Ht, Hn0.
Qed.

Lemma cleanCompanyName_ok name tickerDict st :
  cachesOk tickerDict st -> cachesOk tickerDict (snd (cleanCompanyName name st)).
Proof.
  intros [Hc Ht].
  destruct (cleanCompanyName_run name st Hc) as (st1 & E & Hc1 & Ht1).
  rewrite E. split; [exact Hc1 | cbn [snd]; rewrite Ht1; exact Ht].
Qed.

Lemma reachableFor_ok tickerDict st : reachableFor tickerDict st -> cachesOk tickerDict st.
Proof.
  induction 1 as [|name st _ IH|name st _ IH|name other st _ IH Hne].
  - apply cachesOk_empty.
  - apply cleanCompanyName_ok, IH.
  - destruct (findTicker_run name tickerDict st IH) as (st' & E & Hok).
    rewrite E. exact Hok.
  - apply findTicker_other; [exact IH | exact Hne].
Qed.

(** *** Claims on the resolver *)

Lemma sentinel_spec companyName :
  sentinel companyName = true <->
  companyName = None \/
  exists s, companyName = Some s /\
    (s = "" \/ Str.trim s = "" \/ Str.includes s "Cash" = true
     \/ Str.includes s "Equity" = true).
Proof.
  destruct companyName as [s|]; cbn [sentinel].
  - rewrite !orb_true_iff, !isEmpty_true. split.
    + intros H. right. exists s. split; [reflexivity | tauto].
    + intros [H | (s' & [= <-] & H)]; [discriminate | tauto].
  - split; [left; reflexivity | reflexivity].
Qed.

(** C3: an input that is [null], empty or blank, or that contains ["Cash"]
    or ["Equity"], resolves to the empty string whatever the mapping is,
    and both caches are left as they were. *)
Theorem C3_sentinel_skips companyName tickerDict st :
  (companyName = None \/
   exists s, companyName = Some s /\
     (s = "" \/ Str.trim s = "" \/ Str.includes s "Cash" = true
      \/ Str.includes s "Equity" = true)) ->
  findTicker companyName tickerDict st = ("", st).
Proof.
  intros H. apply sentinel_spec in H. unfold findTicker. rewrite H. reflexivity.
Qed.

Lemma C3_sentinel_skips_witness :
  findTicker (Some "Equity Cash") [("Equity Cash", "EQC")] emptyCaches
  = ("", emptyCaches).
Proof.
  apply C3_sentinel_skips. right. exists "Equity Cash".
  split; [reflexivity|]. right. right. left. vm_compute. reflexivity.
Defined.

Lemma exactPure_first cleanName pre key ticker post :
  cleanPure (Some key) = Some cleanName ->
  (forall k t, In (k, t) pre -> cleanPure (Some k) <> Some cleanName) ->
  exactPure cleanName (pre ++ (key, ticker) :: post)%list = Some ticker.
Proof.
  intros Hkey. induction pre as [|[k t] pre IH]; intros Hpre; cbn [app exactPure].
  - rewrite bool_decide_eq_true_2 by exact Hkey. reflexivity.
  - rewrite bool_decide_eq_false_2 by (apply (Hpre k t); left; reflexivity).
    apply IH. intros k' t' Hin. apply (Hpre k' t'). right. exact Hin.
Qed.

(** C1, the claim fails as stated: the sentinel check comes before the
    exact match.  ["Equity Bank"] and the full name ["Equity Bank Ltd"]
    have the same normalized name, yet the input resolves to the empty
    string, not to that entry's identifier. *)
Lemma C1_sentinel_before_exact_match :
  let tickerDict := [("Equity Bank Ltd", "EQB")] in
  fst (cleanCompanyName (Some "Equity Bank") emptyCaches) = Some "equity bank"
  /\ fst (cleanCompanyName (Some "Equity Bank Ltd") emptyCaches) = Some "equity bank"
  /\ fst (findTicker (Some "Equity Bank") tickerDict emptyCaches) = "".
Proof. vm_compute. repeat split. Qed.

(** C1, amended: for an input that passes the sentinel check and whose
    normalized name has more than 2 characters, and with caches reached
    without resolving over another mapping with the same full names,
    [findTicker] returns the identifier of the first entry whose normalized
    full name is the input's, whatever the scores of the other entries
    are. *)
Theorem C1_exact_match_first st companyName tickerDict cleanName pre key ticker post :
  reachableFor tickerDict st ->
  sentinel (Some companyName) = false ->
  cleanPure (Some companyName) = Some cleanName ->
  (2 < Str.len cleanName)%Z ->
  tickerDict = (pre ++ (key, ticker) :: post)%list ->
  cleanPure (Some key) = Some cleanName ->
  (forall k t, In (k, t) pre -> cleanPure (Some k) <> Some cleanName) ->
  fst (findTicker (Some companyName) tickerDict st) = ticker.
Proof.
  intros Hreach Hs Hc Hlen Hd Hkey Hpre.
  destruct (findTicker_run (Some companyName) tickerDict st
              (reachableFor_ok _ _ Hreach)) as (st' & E & _).
  rewrite E. cbn [fst]. unfold resolve. rewrite Hs, Hc.
  replace (Str.isEmpty cleanName || (Str.len cleanName <=? 2)%Z) with false.
  - unfold resolveClean. rewrite Hd, (exactPure_first cleanName pre key ticker post Hkey Hpre).
    reflexivity.
  - symmetry. apply orb_false_iff. split; [|apply Z.leb_gt; exact Hlen].
    destruct cleanName; [vm_compute in Hlen; discriminate Hlen | reflexivity].
Qed.

Lemma C1_exact_match_first_witness :
  fst (findTicker (Some "AGARWAL INDUSTRIAL")
         [ ("Apar Industries Ltd", "APR IN EQUITY");
           ("Agarwal Industrial Corp Ltd", "AGAR IN EQUITY");
           ("Agarwal Industrial Inc", "OTHER") ]
         emptyCaches) = "AGAR IN EQUITY".
Proof.
  apply (C1_exact_match_first emptyCaches "AGARWAL INDUSTRIAL" _ "agarwal industrial"
           [("Apar Industries Ltd", "APR IN EQUITY")] "Agarwal Industrial Corp Ltd"
           "AGAR IN EQUITY" [("Agarwal Industrial Inc", "OTHER")]).
  - apply reach_empty.
  - vm_compute. reflexivity.
  - vm_compute. reflexivity.
  - vm_compute. reflexivity.
  - reflexivity.
  - vm_compute. reflexivity.
  - intros k t [[= <- <-] | []]. vm_compute. discriminate.
Defined.

(** C4, the claim fails as stated: the key of the resolution cache holds
    the full names of the mapping but not its identifiers.  After a
    resolution over a mapping that gives ["Acme Ltd"] the identifier
    ["OLD"], the same input over the mapping that gives it ["NEW"] resolves
    to ["OLD"], whereas with empty caches it resolves to ["NEW"]. *)
Lemma C4_stale_resolution :
  let before := snd (findTicker (Some "Acme") [("Acme Ltd", "OLD")] emptyCaches) in
  fst (findTicker (Some "Acme") [("Acme Ltd", "NEW")] emptyCaches) = "NEW"
  /\ fst (findTicker (Some "Acme") [("Acme Ltd", "NEW")] before) = "OLD".
Proof. vm_compute. split; reflexivity. Qed.

(** C4, amended: [findTicker] is a function of the input and the mapping
    over the caches that calls reach from the empty ones, as long as no
    other mapping with the same full names is resolved over: any two calls
    from such caches return the same result, the one computed without
    caches. *)
Theorem C4_function_of_input_and_mapping tickerDict companyName st1 st2 :
  reachableFor tickerDict st1 ->
  reachableFor tickerDict st2 ->
  fst (findTicker companyName tickerDict st1)
  = fst (findTicker companyName tickerDict st2)
  /\ fst (findTicker companyName tickerDict st1) = resolve companyName tickerDict.
Proof.
  intros H1 H2.
  destruct (findTicker_run companyName tickerDict st1 (reachableFor_ok _ _ H1))
    as (st1' & E1 & _).
  destruct (findTicker_run companyName tickerDict st2 (reachableFor_ok _ _ H2))
    as (st2' & E2 & _).
  rewrite E1, E2. split; reflexivity.
Qed.

Lemma C4_function_of_input_and_mapping_witness :
  let tickerDict := [("Acme Ltd", "NEW"); ("Acme Holdings Inc", "OTHER")] in
  let otherDict := [("Acme Ltd", "OLD")] in
  let st2 :=
    snd (findTicker (Some "ACME co.") tickerDict
           (snd (findTicker (Some "Acme") otherDict emptyCaches))) in
  fst (findTicker (Some "Acme") tickerDict emptyCaches)
  = fst (findTicker (Some "Acme") tickerDict st2)
  /\ fst (findTicker (Some "Acme") tickerDict emptyCaches)
     = resolve (Some "Acme") tickerDict.
Proof.
  intros tickerDict otherDict st2.
  apply (C4_function_of_input_and_mapping tickerDict (Some "Acme") emptyCaches st2).
  - apply reach_empty.
  - apply reach_same, reach_other; [apply reach_empty|].
    vm_compute. discriminate.
Defined.

(** *** The threshold and the ties of the scored strategy *)

Lemma dictGet_first key ticker pre post :
  (forall k t, In (k, t) pre -> k <> key) ->
  dictGet key (pre ++ (key, ticker) :: post) = Some ticker.
Proof.
  induction pre as [|[k t] pre IH]; intros H; cbn [app dictGet].
  - rewrite String.eqb_refl. reflexivity.
  - destruct (String.eqb_spec k key) as [E|_].
    + contradiction (H k t (or_introl eq_refl) E).
    + apply IH. intros k' t' Hin. apply (H k' t'). right. exact Hin.
Qed.

(** While every entry scores below [s], so does the best one. *)
Lemma fuzzyPure_below cleanName inputWords s entries : forall best,
  (snd best < s)%Z ->
  (forall k t s', In (k, t) entries ->
     candidateScore cleanName inputWords k = Some s' -> (s' < s)%Z) ->
  (snd (fuzzyPure cleanName inputWords entries best) < s)%Z.
Proof.
  induction entries as [|[key ticker] rest IH]; intros best Hb H; [exact Hb|].
  cbn [fuzzyPure].
  assert (Hrest : forall k t s', In (k, t) rest ->
            candidateScore cleanName inputWords k = Some s' -> (s' < s)%Z)
    by (intros k t s' Hin; apply (H k t s'); right; exact Hin).
  destruct (candidateScore cleanName inputWords key) as [s0|] eqn:E; [|apply IH; assumption].
  destruct ((snd best <? s0)%Z && (70 <=? s0)%Z); apply IH; try assumption.
  cbn [snd]. exact (H key ticker s0 (or_introl eq_refl) E).
Qed.

(** What [findTicker] returns when it reaches the scored strategy: the
    value of [tickerDict[bestMatch]] for the best entry of the scan, or the
    empty string when the scan keeps none. *)
Lemma findTicker_scored st companyName tickerDict cleanName :
  reachableFor tickerDict st ->
  sentinel (Some companyName) = false ->
  cleanPure (Some companyName) = Some cleanName ->
  (2 < Str.len cleanName)%Z ->
  exactPure cleanName tickerDict = None ->
  (length (Str.split cleanName) = 1%nat -> directLoop cleanName tickerDict = None) ->
  fst (findTicker (Some companyName) tickerDict st)
  = let best := fuzzyPure cleanName (Str.split cleanName) tickerDict (None, 0%Z) in
    if truthy (fst best)
    then default "" (bestMatch ← fst best; dictGet bestMatch tickerDict)
    else "".
Proof.
  intros Hreach Hs Hc Hlen Hex Hdir.
  destruct (findTicker_run (Some companyName) tickerDict st (reachableFor_ok _ _ Hreach))
    as (st' & E & _).
  rewrite E. cbn [fst]. unfold resolve. rewrite Hs, Hc.
  replace (Str.isEmpty cleanName || (Str.len cleanName <=? 2)%Z) with false.
  - unfold resolveClean. rewrite Hex.
    destruct (Nat.eqb (length (Str.split cleanName)) 1) eqn:E1; cbn [andb]; [|reflexivity].
    apply Nat.eqb_eq in E1. rewrite (Hdir E1).
    destruct (3 <=? Str.len cleanName)%Z; reflexivity.
  - symmetry. apply orb_false_iff. split; [|apply Z.leb_gt; lia].
    destruct cleanName; [vm_compute in Hlen; discriminate Hlen | reflexivity].
Qed.

(** C2: the threshold and the ties of the scored strategy, on what
    [findTicker] returns.  The strategy is reached by an input that passes
    the sentinel check and the length guard and that neither the exact nor
    the direct strategy resolves.  Then
    - a candidate that scores below 70 is never returned: the result is the
      empty string when no candidate reaches 70, and otherwise it is the
      identifier of an entry that scores at least 70, more than every
      earlier entry and at least as much as every later one;
    - a candidate that scores 70, or more, is returned whenever every
      earlier entry scores strictly less and no later entry scores more: of
      two entries with the same best score the earlier one is returned. *)
Theorem C2_threshold_and_ties st companyName tickerDict cleanName :
  reachableFor tickerDict st ->
  sentinel (Some companyName) = false ->
  cleanPure (Some companyName) = Some cleanName ->
  (2 < Str.len cleanName)%Z ->
  exactPure cleanName tickerDict = None ->
  (length (Str.split cleanName) = 1%nat -> directLoop cleanName tickerDict = None) ->
  let scoreOf := candidateScore cleanName (Str.split cleanName) in
  let returned := fst (findTicker (Some companyName) tickerDict st) in
  (((forall k t s, In (k, t) tickerDict -> scoreOf k = Some s -> (s < 70)%Z)
    /\ returned = "")
   \/ exists pre key ticker post s,
        tickerDict = (pre ++ (key, ticker) :: post)%list
        /\ scoreOf key = Some s /\ (70 <= s)%Z
        /\ (forall k t s', In (k, t) pre -> scoreOf k = Some s' -> (s' < s)%Z)
        /\ (forall k t s', In (k, t) post -> scoreOf k = Some s' -> (s' <= s)%Z)
        /\ returned = ticker)
  /\ (forall pre key ticker post s,
        tickerDict = (pre ++ (key, ticker) :: post)%list ->
        scoreOf key = Some s -> (70 <= s)%Z ->
        (forall k t s', In (k, t) pre -> scoreOf k = Some s' -> (s' < s)%Z) ->
        (forall k t s', In (k, t) post -> scoreOf k = Some s' -> (s' <= s)%Z) ->
        returned = ticker).
Proof.
  intros Hreach Hs Hc Hlen Hex Hdir scoreOf returned.
  pose proof (findTicker_scored st companyName tickerDict cleanName
                Hreach Hs Hc Hlen Hex Hdir) as Hret.
  fold returned in Hret. cbv zeta in Hret.
  assert (Hkept : forall pre key ticker post s,
            tickerDict = (pre ++ (key, ticker) :: post)%list ->
            scoreOf key = Some s ->
            (forall k t s', In (k, t) pre -> scoreOf k = Some s' -> (s' < s)%Z) ->
            fuzzyPure cleanName (Str.split cleanName) tickerDict (None, 0%Z)
            = (Some key, s) ->
            returned = ticker).
  { intros pre key ticker post s Hd Hkey Hpre Hscan.
    rewrite Hscan in Hret. cbn [fst truthy] in Hret.
    assert (Hne : Str.isEmpty key = false).
    { destruct key; [|reflexivity]. vm_compute in Hkey. discriminate Hkey. }
    rewrite Hne in Hret. cbn [negb] in Hret.
    change (returned = default "" (dictGet key tickerDict)) in Hret.
    rewrite Hd, dictGet_first in Hret; [exact Hret|].
    intros k t Hin ->. pose proof (Hpre key t s Hin Hkey). lia. }
  split.
  - destruct (fuzzyPure cleanName (Str.split cleanName) tickerDict (None, 0%Z))
      as [b bs] eqn:Ef.
    destruct (fuzzyPure_spec _ _ _ _ _ _ _ Ef) as
      [(-> & -> & Hall) | (pre & key & ticker & post & Hd & -> & Hkey & H70 & _ & Hpre & Hpost)].
    + left. split; [|exact Hret].
      intros k t s Hin Hk. destruct (Hall k t s Hin Hk); lia.
    + right. exists pre, key, ticker, post, bs. repeat split; auto.
      apply (Hkept pre key ticker post bs Hd Hkey Hpre). reflexivity.
  - intros pre key ticker post s Hd Hkey H70 Hpre Hpost.
    apply (Hkept pre key ticker post s Hd Hkey Hpre).
    rewrite Hd, fuzzyPure_app.
    pose proof (fuzzyPure_below cleanName (Str.split cleanName) s pre (None, 0%Z)
                  ltac:(cbn [snd]; lia) Hpre) as Hbelow.
    destruct (fuzzyPure cleanName (Str.split cleanName) pre (None, 0%Z)) as [b bs].
    cbn [snd] in Hbelow. cbn [fuzzyPure]. fold scoreOf. rewrite Hkey. cbn [snd].
    replace ((bs <? s)%Z && (70 <=? s)%Z) with true
      by (symmetry; apply andb_true_iff; split; [apply Z.ltb_lt | apply Z.leb_le]; lia).
    apply fuzzyPure_stable. intros k t s' Hin Hk. left. exact (Hpost k t s' Hin Hk).
Qed.

(** An entry that scores 69 is passed over and, of the two entries that
    score exactly 70, the earlier one is returned. *)
Lemma C2_threshold_and_ties_witness :
  let tickerDict :=
    [ ("Metal Capital Chemicals Ltd", "MCC");
      ("House Metals Ltd", "HML");
      ("Trust Beta Ltd", "TBL") ] in
  let scoreOf := candidateScore "metals trust" (Str.split "metals trust") in
  scoreOf "Metal Capital Chemicals Ltd" = Some 69%Z
  /\ scoreOf "House Metals Ltd" = Some 70%Z
  /\ scoreOf "Trust Beta Ltd" = Some 70%Z
  /\ fst (findTicker (Some "Metals Trust") tickerDict emptyCaches) = "HML".
Proof.
  intros tickerDict scoreOf.
  split; [vm_compute; reflexivity|].
  split; [vm_compute; reflexivity|].
  split; [vm_compute; reflexivity|].
  refine (proj2 (C2_threshold_and_ties emptyCaches "Metals Trust" tickerDict
                   "metals trust" _ _ _ _ _ _)
            [("Metal Capital Chemicals Ltd", "MCC")] "House Metals Ltd" "HML"
            [("Trust Beta Ltd", "TBL")] 70%Z _ _ _ _ _).
  - apply reach_empty.
  - vm_compute. reflexivity.
  - vm_compute. reflexivity.
  - vm_compute. reflexivity.
  - vm_compute. reflexivity.
  - intros H. vm_compute in H. discriminate H.
  - reflexivity.
  - vm_compute. reflexivity.
  - vm_compute. discriminate.
  - intros k t s' [[= <- <-] | []] Hk. vm_compute in Hk.
    injection Hk as <-. reflexivity.
  - intros k t s' [[= <- <-] | []] Hk. vm_compute in Hk.
    injection Hk as <-. vm_compute. discriminate.
Defined.

(** * Further properties *)

(** ** The normalizer and its cache *)

Lemma isSpace_toLower c : Char.isSpace (Char.toLower c) = Char.isSpace c.
Proof. ascii_cases c; vm_compute; reflexivity. Qed.

Lemma all_space_toLowerCase s :
  Str.all Char.isSpace (Str.toLowerCase s) = Str.all Char.isSpace s.
Proof.
  induction s as [|c r IH]; [reflexivity|].
  cbn [Str.toLowerCase Str.map Str.all]. rewrite isSpace_toLower. f_equal. exact IH.
Qed.

(** The guard of [cleanCompanyName] looks at the trimmed lowercase form only. *)
Lemma isBlank_lowered n :
  isBlank (Some n) = Str.isEmpty (Str.trim (Str.toLowerCase n)).
Proof.
  cbn [isBlank].
  destruct (Str.isEmpty (Str.trim (Str.toLowerCase n))) eqn:E.
  - apply isEmpty_true, trim_empty in E. rewrite all_space_toLowerCase in E.
    apply trim_empty in E. rewrite E. apply orb_true_r.
  - apply orb_false_iff. split.
    + destruct n; [discriminate E | reflexivity].
    + apply isEmpty_false. intros H. apply trim_empty in H.
      rewrite <- all_space_toLowerCase in H. apply trim_empty in H.
      rewrite H in E. discriminate E.
Qed.

Lemma cleanPure_lowered a b :
  Str.trim (Str.toLowerCase a) = Str.trim (Str.toLowerCase b) ->
  cleanPure (Some a) = cleanPure (Some b).
Proof.
  intros H. unfold cleanPure. rewrite !isBlank_lowered, H.
  destruct (Str.isEmpty (Str.trim (Str.toLowerCase b))); [reflexivity|].
  unfold cleanSteps. rewrite H. reflexivity.
Qed.

(** X1: the cleaned name depends on the raw name only through its
    lowercase, trimmed form: letter case and white space around the name
    make no difference. *)
Theorem clean_ignores_case_and_padding st1 st2 a b :
  cleanCacheOk (cleanNameCache st1) ->
  cleanCacheOk (cleanNameCache st2) ->
  Str.trim (Str.toLowerCase a) = Str.trim (Str.toLowerCase b) ->
  fst (cleanCompanyName (Some a) st1) = fst (cleanCompanyName (Some b) st2).
Proof.
  intros H1 H2 H.
  destruct (cleanCompanyName_run (Some a) st1 H1) as (st1' & E1 & _).
  destruct (cleanCompanyName_run (Some b) st2 H2) as (st2' & E2 & _).
  rewrite E1, E2. exact (cleanPure_lowered a b H).
Qed.

Lemma clean_ignores_case_and_padding_witness :
  fst (cleanCompanyName (Some "  BLS International Services LTD") emptyCaches)
  = fst (cleanCompanyName (Some "bls INTERNATIONAL services ltd  ") emptyCaches).
Proof.
  apply clean_ignores_case_and_padding.
  - exact cleanCacheOk_empty.
  - exact cleanCacheOk_empty.
  - vm_compute. reflexivity.
Defined.

(** X2: the cache of cleaned names is keyed by the lowercase form: right
    after a call for [a], a call for any [b] with the same lowercase form
    returns the same value and leaves both caches as they are, whatever
    the caches held before. *)
Theorem clean_second_call_cached st a b :
  Str.toLowerCase a = Str.toLowerCase b ->
  cleanCompanyName (Some b) (snd (cleanCompanyName (Some a) st))
  = (fst (cleanCompanyName (Some a) st), snd (cleanCompanyName (Some a) st)).
Proof.
  intros H. unfold cleanCompanyName. rewrite !isBlank_lowered, <- H.
  destruct (Str.isEmpty (Str.trim (Str.toLowerCase a))); [reflexivity|].
  unfold mbind, M_bind, cleanNameGet, cleanNameSet, mret, M_ret.
  destruct (cleanNameCache st !! Str.toLowerCase a) as [v|] eqn:E; cbn [fst snd].
  - rewrite E. reflexivity.
  - cbn [cleanNameCache]. rewrite lookup_insert_eq. reflexivity.
Qed.

Lemma clean_second_call_cached_witness :
  let st := snd (cleanCompanyName (Some "ABC Ltd") emptyCaches) in
  cleanCompanyName (Some "abc ltd") st = (Some "abc", st).
Proof.
  exact (clean_second_call_cached emptyCaches "ABC Ltd" "abc ltd" eq_refl).
Defined.

(** *** Lengths *)

Lemma length_map f s : String.length (Str.map f s) = String.length s.
Proof. induction s as [|c r IH]; [reflexivity|]. cbn. rewrite IH. reflexivity. Qed.

Lemma length_trimStart s : (String.length (Str.trimStart s) <= String.length s)%nat.
Proof.
  induction s as [|c r IH]; [reflexivity|]. cbn [Str.trimStart].
  destruct (Char.isSpace c); cbn [String.length]; lia.
Qed.

Lemma length_trimEnd s : (String.length (Str.trimEnd s) <= String.length s)%nat.
Proof.
  induction s as [|c r IH]; [reflexivity|]. cbn [Str.trimEnd].
  destruct (Str.trimEnd r) as [|d r']; [destruct (Char.isSpace c)|];
    cbn [String.length] in *; lia.
Qed.

Lemma length_trim s : (String.length (Str.trim s) <= String.length s)%nat.
Proof.
  unfold Str.trim. pose proof (length_trimEnd (Str.trimStart s)).
  pose proof (length_trimStart s). lia.
Qed.

Lemma length_removeFrom alts s : forall skip prevWord,
  (String.length (Regex.removeFrom alts skip prevWord s) <= String.length s)%nat.
Proof.
  induction s as [|c r IH]; intros skip prevWord; [reflexivity|].
  cbn [Regex.removeFrom]. destruct skip as [|k].
  - destruct (xorb prevWord (Char.isWord c));
      [destruct (Regex.matchGroup alts (String c r)) as [[|k]|]|];
      cbn [String.length];
      try (pose proof (IH 0%nat (Char.isWord c)); lia).
    pose proof (IH k (Char.isWord c)). lia.
  - cbn [String.length]. pose proof (IH k (Char.isWord c)). lia.
Qed.

Lemma length_removeSuffixes s :
  (String.length (removeSuffixes s) <= String.length s)%nat.
Proof.
  unfold removeSuffixes. generalize suffixes. intros res. revert s.
  induction res as [|re res IH]; intros s; cbn [fold_left]; [lia|].
  pose proof (IH (Regex.remove re s)).
  pose proof (length_removeFrom re s 0%nat false). unfold Regex.remove in *. lia.
Qed.

Lemma length_collapseFrom s : forall inRun,
  (String.length (Regex.collapseFrom inRun s) <= String.length s)%nat.
Proof.
  induction s as [|c r IH]; intros inRun; [reflexivity|].
  cbn [Regex.collapseFrom].
  destruct (Char.isSpace c); [destruct inRun|]; cbn [String.length];
    try (pose proof (IH true)); try (pose proof (IH false)); lia.
Qed.

Lemma length_cleanSteps lowered :
  (String.length (cleanSteps lowered) <= String.length lowered)%nat.
Proof.
  unfold cleanSteps, Regex.collapse, Regex.replacePunct.
  pose proof (length_trim lowered).
  pose proof (length_removeSuffixes (Str.trim lowered)).
  pose proof (length_map
    (fun c => if Char.isWord c || Char.isSpace c then c else " "%char)
    (removeSuffixes (Str.trim lowered))).
  pose proof (length_collapseFrom
    (Str.map (fun c => if Char.isWord c || Char.isSpace c then c else " "%char)
       (removeSuffixes (Str.trim lowered))) false).
  pose proof (length_trim
    (Regex.collapseFrom false
      (Str.map (fun c => if Char.isWord c || Char.isSpace c then c else " "%char)
         (removeSuffixes (Str.trim lowered))))).
  lia.
Qed.

(** X3: on raw names of code units below 256, where [toLowerCase] maps
    each code unit to one, normalization only deletes and replaces: the
    cleaned name is never longer than the raw name. *)
Theorem clean_never_longer st x y :
  cleanCacheOk (cleanNameCache st) ->
  fst (cleanCompanyName (Some x) st) = Some y ->
  (Str.len y <= Str.len x)%Z.
Proof.
  intros Hok Hrun.
  destruct (cleanCompanyName_run (Some x) st Hok) as (st' & E & _).
  rewrite E in Hrun. cbn [fst] in Hrun. unfold cleanPure in Hrun.
  destruct (isBlank (Some x)); [discriminate Hrun|]. injection Hrun as <-.
  pose proof (length_cleanSteps (Str.toLowerCase x)) as H.
  unfold Str.toLowerCase in H at 2. rewrite length_map in H.
  unfold Str.len. lia.
Qed.

Lemma clean_never_longer_witness :
  (Str.len "a 1" <= Str.len "A-1 Ltd")%Z.
Proof.
  apply (clean_never_longer emptyCaches "A-1 Ltd" "a 1").
  - exact cleanCacheOk_empty.
  - vm_compute. reflexivity.
Defined.

(** ** What calls do to the caches *)

Lemma cleanCompanyName_grows name st :
  cleanNameCache st ⊆ cleanNameCache (snd (cleanCompanyName name st))
  /\ tickerCache (snd (cleanCompanyName name st)) = tickerCache st.
Proof.
  destruct name as [n|]; [|split; reflexivity]. unfold cleanCompanyName.
  destruct (isBlank (Some n)); [split; reflexivity|].
  unfold mbind, M_bind, cleanNameGet, cleanNameSet, mret, M_ret.
  destruct (cleanNameCache st !! Str.toLowerCase n) as [v|] eqn:E; cbn [snd].
  - split; reflexivity.
  - split; [|reflexivity]. cbn [cleanNameCache]. apply insert_subseteq, E.
Qed.

Lemma exactLoop_grows cleanName entries : forall st,
  cleanNameCache st ⊆ cleanNameCache (snd (exactLoop cleanName entries st))
  /\ tickerCache (snd (exactLoop cleanName entries st)) = tickerCache st.
Proof.
  induction entries as [|[key ticker] rest IH]; intros st; [split; reflexivity|].
  cbn [exactLoop]. unfold mbind, M_bind.
  destruct (cleanCompanyName_grows (Some key) st) as [H1 H2].
  destruct (cleanCompanyName (Some key) st) as [ck st1]. cbn [snd] in H1, H2.
  case_bool_decide.
  - split; [exact H1 | exact H2].
  - destruct (IH st1) as [H3 H4]. split; [etrans; eassumption | congruence].
Qed.

Lemma fuzzyLoop_grows cleanName inputWords entries : forall best st,
  cleanNameCache st
    ⊆ cleanNameCache (snd (fuzzyLoop cleanName inputWords entries best st))
  /\ tickerCache (snd (fuzzyLoop cleanName inputWords entries best st))
     = tickerCache st.
Proof.
  induction entries as [|[key ticker] rest IH]; intros best st; [split; reflexivity|].
  cbn [fuzzyLoop]. unfold mbind, M_bind.
  destruct (cleanCompanyName_grows (Some key) st) as [H1 H2].
  destruct (cleanCompanyName (Some key) st) as [ck st1]. cbn [snd] in H1, H2.
  assert (Hstep : forall b,
    cleanNameCache st
      ⊆ cleanNameCache (snd (fuzzyLoop cleanName inputWords rest b st1))
    /\ tickerCache (snd (fuzzyLoop cleanName inputWords rest b st1))
       = tickerCache st).
  { intros b. destruct (IH b st1) as [H3 H4].
    split; [etrans; eassumption | congruence]. }
  destruct ck as [ck|]; [|apply Hstep].
  destruct (Str.isEmpty ck); [apply Hstep|].
  destruct ((snd best <? Scorer.score cleanName inputWords ck)%Z
            && (70 <=? Scorer.score cleanName inputWords ck)%Z); apply Hstep.
Qed.

(** A call that finds its resolution in the cache returns it and changes
    nothing. *)
Lemma findTicker_hit name tickerDict st cleanName ticker :
  sentinel name = false ->
  cleanCompanyName name st = (Some cleanName, st) ->
  Str.isEmpty cleanName || (Str.len cleanName <=? 2)%Z = false ->
  tickerCache st !! cacheKeyOf cleanName tickerDict = Some ticker ->
  findTicker name tickerDict st = (ticker, st).
Proof.
  intros Hs Hc Hg Hk. unfold findTicker. rewrite Hs.
  unfold mbind, M_bind. rewrite Hc, Hg. unfold tickerGet. rewrite Hk. reflexivity.
Qed.

(** A cleaned name, once returned, is returned again from every larger
    cache. *)
Lemma cleanCompanyName_stable name st st' :
  cleanNameCache (snd (cleanCompanyName name st)) ⊆ cleanNameCache st' ->
  cleanCompanyName name st' = (fst (cleanCompanyName name st), st').
Proof.
  destruct name as [n|]; [|reflexivity]. unfold cleanCompanyName.
  destruct (isBlank (Some n)); [reflexivity|].
  unfold mbind, M_bind, cleanNameGet, cleanNameSet, mret, M_ret.
  destruct (cleanNameCache st !! Str.toLowerCase n) as [v|] eqn:E;
    cbn [fst snd cleanNameCache]; intros Hsub.
  - rewrite (lookup_weaken _ _ _ _ E Hsub). reflexivity.
  - rewrite (lookup_weaken _ _ (Str.toLowerCase n)
               (cleanSteps (Str.toLowerCase n)) (lookup_insert_eq _ _ _) Hsub).
    reflexivity.
Qed.

(** X4: neither cache ever loses or changes an entry: [cleanCompanyName]
    only adds to the cache of cleaned names and leaves the resolution cache
    alone, and [findTicker] only adds to both. *)
Theorem caches_only_grow :
  (forall name st,
     cleanNameCache st ⊆ cleanNameCache (snd (cleanCompanyName name st))
     /\ tickerCache (snd (cleanCompanyName name st)) = tickerCache st)
  /\ (forall companyName tickerDict st,
        cleanNameCache st
          ⊆ cleanNameCache (snd (findTicker companyName tickerDict st))
        /\ tickerCache st
             ⊆ tickerCache (snd (findTicker companyName tickerDict st))).
Proof.
  split; [exact cleanCompanyName_grows|].
  intros name tickerDict st. unfold findTicker.
  destruct (sentinel name); [split; reflexivity|].
  unfold mbind, M_bind.
  destruct (cleanCompanyName_grows name st) as [Hc1 Ht1].
  destruct (cleanCompanyName name st) as [cleaned st1]. cbn [snd] in Hc1, Ht1.
  destruct cleaned as [cn|]; [|split; [exact Hc1 | unfold mret, M_ret; cbn [snd]; rewrite Ht1; reflexivity]].
  destruct (Str.isEmpty cn || (Str.len cn <=? 2)%Z);
    [split; [exact Hc1 | unfold mret, M_ret; cbn [snd]; rewrite Ht1; reflexivity]|].
  unfold tickerGet.
  destruct (tickerCache st1 !! cacheKeyOf cn tickerDict) as [v|] eqn:Ek;
    [split; [exact Hc1 | unfold mret, M_ret; cbn [snd]; rewrite Ht1; reflexivity]|].
  destruct (exactLoop_grows cn tickerDict st1) as [Hc2 Ht2].
  destruct (exactLoop cn tickerDict st1) as [exact st2]. cbn [snd] in Hc2, Ht2.
  assert (Hset : forall v st',
    cleanNameCache st1 ⊆ cleanNameCache st' -> tickerCache st' = tickerCache st1 ->
    cleanNameCache st
      ⊆ cleanNameCache (snd (tickerSet (cacheKeyOf cn tickerDict) v st'))
    /\ tickerCache st
         ⊆ tickerCache (snd (tickerSet (cacheKeyOf cn tickerDict) v st'))).
  { intros v st' Hc Ht. cbn [tickerSet snd cleanNameCache tickerCache]. split.
    - etrans; eassumption.
    - rewrite Ht, <- Ht1. apply insert_subseteq. exact Ek. }
  destruct exact as [t|]; [exact (Hset t st2 Hc2 Ht2)|].
  destruct (if Nat.eqb (length (Str.split cn)) 1 && (3 <=? Str.len cn)%Z
            then directLoop cn tickerDict else None) as [t|];
    [exact (Hset t st2 Hc2 Ht2)|].
  destruct (fuzzyLoop_grows cn (Str.split cn) tickerDict (None, 0%Z) st2)
    as [Hc3 Ht3].
  destruct (fuzzyLoop cn (Str.split cn) tickerDict (None, 0%Z) st2) as [best st3].
  cbn [snd] in Hc3, Ht3.
  destruct (truthy (fst best)); apply Hset;
    solve [etrans; eassumption | congruence].
Qed.

(** X5: a resolution is served from the cache on every later call whose
    mapping has the same full names, whatever their order and their
    identifiers: right after a call over [tickerDict], the same input over
    [otherDict] gives the same result and changes nothing.  This holds for
    every state of the caches. *)
Theorem findTicker_served_from_cache companyName tickerDict otherDict st :
  sortedNames otherDict = sortedNames tickerDict ->
  findTicker companyName otherDict (snd (findTicker companyName tickerDict st))
  = (fst (findTicker companyName tickerDict st),
     snd (findTicker companyName tickerDict st)).
Proof.
  intros Hnames.
  assert (Hkey : forall cn, cacheKeyOf cn otherDict = cacheKeyOf cn tickerDict).
  { intros cn. unfold cacheKeyOf. fold (sortedNames otherDict).
    fold (sortedNames tickerDict). rewrite Hnames. reflexivity. }
  destruct (sentinel companyName) eqn:Hs.
  { unfold findTicker. rewrite Hs. cbn [snd fst]. reflexivity. }
  unfold findTicker at 2 3 4. rewrite Hs. unfold mbind, M_bind.
  pose proof (cleanCompanyName_stable companyName st) as Hstable.
  destruct (cleanCompanyName companyName st) as [cleaned st1]. cbn [fst snd] in Hstable.
  destruct cleaned as [cn|].
  { destruct (Str.isEmpty cn || (Str.len cn <=? 2)%Z) eqn:Hg.
    - cbn [mret M_ret fst snd]. unfold findTicker. rewrite Hs.
      unfold mbind, M_bind. rewrite (Hstable st1 (reflexivity _)), Hg. reflexivity.
    - unfold tickerGet.
      destruct (tickerCache st1 !! cacheKeyOf cn tickerDict) as [v|] eqn:Ek.
      + cbn [mret M_ret fst snd].
        apply (findTicker_hit companyName otherDict st1 cn v Hs
                 (Hstable st1 (reflexivity _)) Hg).
        rewrite Hkey. exact Ek.
      + destruct (exactLoop_grows cn tickerDict st1) as [Hc2 _].
        destruct (exactLoop cn tickerDict st1) as [exact st2]. cbn [snd] in Hc2.
        assert (Hset : forall v st',
          cleanNameCache st1 ⊆ cleanNameCache st' ->
          findTicker companyName otherDict
            (snd (tickerSet (cacheKeyOf cn tickerDict) v st'))
          = (v, snd (tickerSet (cacheKeyOf cn tickerDict) v st'))).
        { intros v st' Hc.
          apply (findTicker_hit companyName otherDict _ cn v Hs
                   (Hstable (snd (tickerSet (cacheKeyOf cn tickerDict) v st')) Hc) Hg).
          rewrite Hkey. cbn [tickerSet snd tickerCache]. apply lookup_insert_eq. }
        destruct exact as [t|]; [exact (Hset t st2 Hc2)|].
        destruct (if Nat.eqb (length (Str.split cn)) 1 && (3 <=? Str.len cn)%Z
                  then directLoop cn tickerDict else None) as [t|];
          [exact (Hset t st2 Hc2)|].
        destruct (fuzzyLoop_grows cn (Str.split cn) tickerDict (None, 0%Z) st2)
          as [Hc3 _].
        destruct (fuzzyLoop cn (Str.split cn) tickerDict (None, 0%Z) st2)
          as [best st3]. cbn [snd] in Hc3.
        destruct (truthy (fst best)); apply Hset; etrans; eassumption. }
  cbn [mret M_ret fst snd]. unfold findTicker. rewrite Hs.
  unfold mbind, M_bind. rewrite (Hstable st1 (reflexivity _)). reflexivity.
Qed.

Lemma findTicker_served_from_cache_witness :
  let first :=
    findTicker (Some "Acme") [("Acme Ltd", "OLD"); ("Zeta Corp", "Z")] emptyCaches in
  findTicker (Some "Acme") [("Zeta Corp", "Z2"); ("Acme Ltd", "NEW")] (snd first)
  = ("OLD", snd first).
Proof.
  exact (findTicker_served_from_cache (Some "Acme")
           [("Acme Ltd", "OLD"); ("Zeta Corp", "Z")]
           [("Zeta Corp", "Z2"); ("Acme Ltd", "NEW")] emptyCaches eq_refl).
Defined.

(** ** What the resolver returns *)

Lemma exactPure_in cleanName entries ticker :
  exactPure cleanName entries = Some ticker ->
  exists key, In (key, ticker) entries /\ cleanPure (Some key) = Some cleanName.
Proof.
  induction entries as [|[k t] rest IH]; [discriminate|]. cbn [exactPure].
  case_bool_decide as E.
  - intros [= <-]. exists k. split; [left; reflexivity | exact E].
  - intros H. destruct (IH H) as (key & Hin & Hk). exists key. split; [right|]; assumption.
Qed.

Lemma exactPure_none cleanName entries :
  (forall k t, In (k, t) entries -> cleanPure (Some k) <> Some cleanName) ->
  exactPure cleanName entries = None.
Proof.
  induction entries as [|[k t] rest IH]; intros H; [reflexivity|]. cbn [exactPure].
  rewrite bool_decide_eq_false_2 by (apply (H k t); left; reflexivity).
  apply IH. intros k' t' Hin. apply (H k' t'). right. exact Hin.
Qed.

Lemma directLoop_in cleanName entries ticker :
  directLoop cleanName entries = Some ticker ->
  exists key, In (key, ticker) entries /\ directHit cleanName key = true.
Proof.
  induction entries as [|[k t] rest IH]; [discriminate|]. cbn [directLoop].
  fold (Str.startsWith (Str.toUpperCase k) (Str.toUpperCase cleanName ++ " ")).
  change (Str.includes (Str.toUpperCase k) (" " ++ Str.toUpperCase cleanName ++ " ")
          || Str.startsWith (Str.toUpperCase k) (Str.toUpperCase cleanName ++ " "))
    with (directHit cleanName k).
  destruct (directHit cleanName k) eqn:E.
  - intros [= <-]. exists k. split; [left; reflexivity | exact E].
  - intros H. destruct (IH H) as (key & Hin & Hk). exists key. split; [right|]; assumption.
Qed.

Lemma directLoop_first cleanName pre key ticker post :
  directHit cleanName key = true ->
  (forall k t, In (k, t) pre -> directHit cleanName k = false) ->
  directLoop cleanName (pre ++ (key, ticker) :: post)%list = Some ticker.
Proof.
  intros Hkey. induction pre as [|[k t] pre IH]; intros Hpre; cbn [app directLoop].
  - change (Str.includes (Str.toUpperCase key) (" " ++ Str.toUpperCase cleanName ++ " ")
            || Str.startsWith (Str.toUpperCase key) (Str.toUpperCase cleanName ++ " "))
      with (directHit cleanName key). rewrite Hkey. reflexivity.
  - change (Str.includes (Str.toUpperCase k) (" " ++ Str.toUpperCase cleanName ++ " ")
            || Str.startsWith (Str.toUpperCase k) (Str.toUpperCase cleanName ++ " "))
      with (directHit cleanName k).
    rewrite (Hpre k t (or_introl eq_refl)).
    apply IH. intros k' t' Hin. apply (Hpre k' t'). right. exact Hin.
Qed.

Lemma dictGet_in key v entries :
  In (key, v) entries -> exists v', dictGet key entries = Some v' /\ In (key, v') entries.
Proof.
  induction entries as [|[k t] rest IH]; intros H; [destruct H|]. cbn [dictGet].
  destruct (String.eqb_spec k key) as [->|Hne].
  - exists t. split; [reflexivity | left; reflexivity].
  - destruct H as [[= -> ->] | H]; [contradiction|].
    destruct (IH H) as (v' & E & Hin). exists v'. split; [exact E | right; exact Hin].
Qed.

Lemma dictGet_some key v entries : dictGet key entries = Some v -> In (key, v) entries.
Proof.
  induction entries as [|[k t] rest IH]; [discriminate|]. cbn [dictGet].
  destruct (String.eqb_spec k key) as [->|Hne].
  - intros [= <-]. left. reflexivity.
  - intros H. right. exact (IH H).
Qed.

Lemma resolveClean_in cleanName tickerDict :
  resolveClean cleanName tickerDict = ""
  \/ exists key, In (key, resolveClean cleanName tickerDict) tickerDict.
Proof.
  unfold resolveClean.
  destruct (exactPure cleanName tickerDict) as [t|] eqn:Ex.
  { right. destruct (exactPure_in _ _ _ Ex) as (key & Hin & _). eauto. }
  destruct (if Nat.eqb (length (Str.split cleanName)) 1 && (3 <=? Str.len cleanName)%Z
            then directLoop cleanName tickerDict else None) as [t|] eqn:Ed.
  { right. destruct (Nat.eqb (length (Str.split cleanName)) 1 && (3 <=? Str.len cleanName)%Z);
      [|discriminate Ed].
    destruct (directLoop_in _ _ _ Ed) as (key & Hin & _). eauto. }
  destruct (truthy (fst (fuzzyPure cleanName (Str.split cleanName) tickerDict (None, 0%Z))));
    [|left; reflexivity].
  destruct (fst (fuzzyPure cleanName (Str.split cleanName) tickerDict (None, 0%Z)))
    as [k|]; cbn; [|left; reflexivity].
  destruct (dictGet k tickerDict) as [v|] eqn:Eg; cbn; [|left; reflexivity].
  right. exists k. exact (dictGet_some _ _ _ Eg).
Qed.

(** X6: [findTicker] returns the empty string or an identifier of the
    mapping it was given, never anything else. *)
Theorem findTicker_result_from_mapping companyName tickerDict st :
  reachableFor tickerDict st ->
  fst (findTicker companyName tickerDict st) = ""
  \/ exists key, In (key, fst (findTicker companyName tickerDict st)) tickerDict.
Proof.
  intros Hreach.
  destruct (findTicker_run companyName tickerDict st (reachableFor_ok _ _ Hreach))
    as (st' & E & _).
  rewrite E. cbn [fst]. unfold resolve.
  destruct (sentinel companyName); [left; reflexivity|].
  destruct (cleanPure companyName) as [cn|]; [|left; reflexivity].
  destruct (Str.isEmpty cn || (Str.len cn <=? 2)%Z); [left; reflexivity|].
  apply resolveClean_in.
Qed.

Lemma findTicker_result_from_mapping_witness :
  let tickerDict := [("Apar Industries Ltd", "APR IN EQUITY")] in
  fst (findTicker (Some "Apar Inds.") tickerDict emptyCaches) = ""
  \/ exists key,
       In (key, fst (findTicker (Some "Apar Inds.") tickerDict emptyCaches)) tickerDict.
Proof.
  intros tickerDict. apply findTicker_result_from_mapping. apply reach_empty.
Defined.

(** X7: a name whose cleaned form has at most 2 characters resolves to the
    empty string whatever the mapping and the resolution cache hold, and
    the resolution cache is not written. *)
Theorem findTicker_short_name companyName tickerDict st cleanName :
  cleanCacheOk (cleanNameCache st) ->
  cleanPure companyName = Some cleanName ->
  (Str.len cleanName <= 2)%Z ->
  fst (findTicker companyName tickerDict st) = ""
  /\ tickerCache (snd (findTicker companyName tickerDict st)) = tickerCache st.
Proof.
  intros Hok Hc Hlen. unfold findTicker.
  destruct (sentinel companyName); [split; reflexivity|].
  unfold mbind, M_bind.
  destruct (cleanCompanyName_run companyName st Hok) as (st1 & E & _ & Ht).
  rewrite E, Hc.
  replace (Str.len cleanName <=? 2)%Z with true by (symmetry; apply Z.leb_le; exact Hlen).
  rewrite orb_true_r. split; [reflexivity | exact Ht].
Qed.

Lemma findTicker_short_name_witness :
  fst (findTicker (Some "LS Industries Ltd") [("LS Industries Ltd", "LSIL IN EQUITY")]
         emptyCaches) = "".
Proof.
  apply (findTicker_short_name (Some "LS Industries Ltd") _ emptyCaches "ls").
  - exact cleanCacheOk_empty.
  - vm_compute. reflexivity.
  - vm_compute. discriminate.
Defined.

(** X8: the direct strategy.  For a cleaned input of a single word with at
    least 3 characters that is no entry's cleaned name, [findTicker] returns
    the identifier of the first entry whose uppercased full name starts
    with the uppercased input followed by a space, or contains it between
    two spaces; the fuzzy scores are not consulted.  The full name is
    uppercased as [toUpperCase] does it, a sharp s becoming [SS]. *)
Theorem findTicker_direct_first st companyName tickerDict cleanName pre key ticker post :
  reachableFor tickerDict st ->
  sentinel (Some companyName) = false ->
  cleanPure (Some companyName) = Some cleanName ->
  length (Str.split cleanName) = 1%nat ->
  (3 <= Str.len cleanName)%Z ->
  (forall k t, In (k, t) tickerDict -> cleanPure (Some k) <> Some cleanName) ->
  tickerDict = (pre ++ (key, ticker) :: post)%list ->
  directHit cleanName key = true ->
  (forall k t, In (k, t) pre -> directHit cleanName k = false) ->
  fst (findTicker (Some companyName) tickerDict st) = ticker.
Proof.
  intros Hreach Hs Hc Hone Hlen Hex Hd Hkey Hpre.
  destruct (findTicker_run (Some companyName) tickerDict st
              (reachableFor_ok _ _ Hreach)) as (st' & E & _).
  rewrite E. cbn [fst]. unfold resolve. rewrite Hs, Hc.
  replace (Str.isEmpty cleanName || (Str.len cleanName <=? 2)%Z) with false.
  - unfold resolveClean. rewrite (exactPure_none cleanName tickerDict Hex), Hone.
    replace (3 <=? Str.len cleanName)%Z with true by (symmetry; apply Z.leb_le; exact Hlen).
    cbn [Nat.eqb andb]. rewrite Hd, (directLoop_first cleanName pre key ticker post Hkey Hpre).
    reflexivity.
  - symmetry. apply orb_false_iff. split; [|apply Z.leb_gt; lia].
    destruct cleanName; [vm_compute in Hlen; contradiction Hlen; reflexivity | reflexivity].
Qed.

(** The first full name, with a sharp s, is uppercased to [ASS CD] and is
    the direct hit for the input [ass]; the second one would be a hit too. *)
Lemma findTicker_direct_first_witness :
  let sharp := String "a" (String "223" " cd") in
  fst (findTicker (Some "Ass")
         [ ("Apar Industries Ltd", "APR IN EQUITY");
           (sharp, "T1");
           ("ass xy", "T2") ]
         emptyCaches) = "T1".
Proof.
  intros sharp.
  apply (findTicker_direct_first emptyCaches "Ass" _ "ass"
           [("Apar Industries Ltd", "APR IN EQUITY")] sharp "T1" [("ass xy", "T2")]).
  - apply reach_empty.
  - vm_compute. reflexivity.
  - vm_compute. reflexivity.
  - vm_compute. reflexivity.
  - vm_compute. discriminate.
  - intros k t [[= <- <-] | [[= <- <-] | [[= <- <-] | []]]]; vm_compute; discriminate.
  - reflexivity.
  - vm_compute. reflexivity.
  - intros k t [[= <- <-] | []]. vm_compute. reflexivity.
Defined.

(** X9: inputs with the same lowercase, trimmed form resolve alike, as
    long as neither trips the sentinel check (which is case-sensitive). *)
Theorem findTicker_ignores_case_and_padding st1 st2 a b tickerDict :
  reachableFor tickerDict st1 ->
  reachableFor tickerDict st2 ->
  sentinel (Some a) = false ->
  sentinel (Some b) = false ->
  Str.trim (Str.toLowerCase a) = Str.trim (Str.toLowerCase b) ->
  fst (findTicker (Some a) tickerDict st1) = fst (findTicker (Some b) tickerDict st2).
Proof.
  intros H1 H2 Ha Hb H.
  destruct (findTicker_run (Some a) tickerDict st1 (reachableFor_ok _ _ H1))
    as (st1' & E1 & _).
  destruct (findTicker_run (Some b) tickerDict st2 (reachableFor_ok _ _ H2))
    as (st2' & E2 & _).
  rewrite E1, E2. cbn [fst]. unfold resolve.
  rewrite Ha, Hb, (cleanPure_lowered a b H). reflexivity.
Qed.

Lemma findTicker_ignores_case_and_padding_witness :
  let tickerDict := [("Agarwal Industrial Corp Ltd", "AGAR IN EQUITY")] in
  fst (findTicker (Some "AGARWAL indl.") tickerDict emptyCaches)
  = fst (findTicker (Some "  agarwal Indl. ") tickerDict emptyCaches).
Proof.
  intros tickerDict. apply findTicker_ignores_case_and_padding.
  - apply reach_empty.
  - apply reach_empty.
  - vm_compute. reflexivity.
  - vm_compute. reflexivity.
  - vm_compute. reflexivity.
Defined.

(** ** The scorer *)

Lemma filter_length_le {A} (p : A -> bool) l : (length (List.filter p l) <= length l)%nat.
Proof. induction l as [|x l IH]; cbn; [lia|]. destruct (p x); cbn; lia. Qed.

Lemma filter_length_impl {A} (p q : A -> bool) l :
  (forall x, p x = true -> q x = true) ->
  (length (List.filter p l) <= length (List.filter q l))%nat.
Proof.
  intros H. induction l as [|x l IH]; cbn; [lia|].
  destruct (p x) eqn:E; [rewrite (H x E); cbn; lia|].
  destruct (q x); cbn; lia.
Qed.

Lemma wordOverlap_significant_nonneg inputWords keyWords :
  (0 <= snd (Scorer.wordOverlap inputWords keyWords))%Z.
Proof.
  unfold Scorer.wordOverlap.
  assert (H : forall ws m s, (0 <= s)%Z ->
    (0 <= snd (fold_left (Scorer.wordStep keyWords) ws (m, s)))%Z).
  { induction ws as [|w ws IH]; intros m s Hs; cbn [fold_left]; [exact Hs|].
    pose proof (abbreviationLoop_significant w keyWords m s) as Ha.
    unfold Scorer.wordStep.
    destruct (Str.member w keyWords).
    - apply IH. destruct (3 <? Str.len w)%Z; lia.
    - destruct (Scorer.abbreviationLoop w keyWords (m, s)) as [m' s'].
      cbn [snd] in Ha. apply IH. lia. }
  apply H. lia.
Qed.

(** X10: the two counts of the word loop stay within their denominators:
    [matchedWords] is between 0 and the number of input words, and
    [significantMatches] between 0 and the number of input words longer
    than 3 characters, so neither ratio exceeds 1. *)
Theorem wordOverlap_bounds inputWords keyWords :
  (0 <= fst (Scorer.wordOverlap inputWords keyWords) <= Z.of_nat (length inputWords))%Z
  /\ (0 <= snd (Scorer.wordOverlap inputWords keyWords)
      <= Z.of_nat (length (List.filter (fun w => (3 <? Str.len w)%Z) inputWords)))%Z.
Proof.
  split.
  - rewrite wordOverlap_matched.
    pose proof (filter_length_le (wordMatched keyWords) inputWords). lia.
  - split; [apply wordOverlap_significant_nonneg|].
    pose proof (wordOverlap_significant_le inputWords keyWords) as H.
    unfold significantMatched in H.
    pose proof (filter_length_impl
      (fun w => wordMatched keyWords w && (3 <? Str.len w)%Z)
      (fun w => (3 <? Str.len w)%Z) inputWords) as H2.
    assert (forall x, wordMatched keyWords x && (3 <? Str.len x)%Z = true ->
                      (3 <? Str.len x)%Z = true) as Himp
      by (intros x Hx; apply andb_true_iff in Hx; tauto).
    specialize (H2 Himp). lia.
Qed.

Lemma split_nonempty_words cleanKey :
  (2 <= length (Str.split cleanKey))%nat -> cleanKey <> "".
Proof. intros H ->. cbn in H. lia. Qed.

(** An input word that is the acronym of the candidate scores at least 95. *)
Lemma score_acronym_floor cleanName inputWord cleanKey :
  (2 <= length (Str.split cleanKey))%nat ->
  (3 <= Str.len inputWord)%Z ->
  Str.toUpperCase inputWord = Scorer.acronymOf (Str.split cleanKey) ->
  (95 <= Scorer.score cleanName [inputWord] cleanKey)%Z.
Proof.
  intros Hk Hlen Hac. unfold Scorer.score, Scorer.acronymAdjust.
  replace (2 <=? Z.of_nat (length (Str.split cleanKey)))%Z with true
    by (symmetry; apply Z.leb_le; lia).
  cbn [length Nat.eqb hd andb].
  replace (3 <=? Str.len inputWord)%Z with true by (symmetry; apply Z.leb_le; exact Hlen).
  rewrite Hac, String.eqb_refl. lia.
Qed.

Lemma cleanPure_key_nonempty key ck : cleanPure (Some key) = Some ck -> key <> "".
Proof. intros H ->. discriminate H. Qed.

(** X11: an acronym is always resolved.  When the cleaned input is a
    single word of at least 3 characters whose uppercase form is the
    acronym of some entry (the initials of the words longer than 2
    characters of a cleaned full name of at least 2 words), [findTicker]
    returns an identifier of the mapping, never "no match". *)
Theorem findTicker_acronym_resolved st companyName tickerDict cleanName key ticker cleanKey :
  reachableFor tickerDict st ->
  sentinel (Some companyName) = false ->
  cleanPure (Some companyName) = Some cleanName ->
  Str.split cleanName = [cleanName] ->
  (3 <= Str.len cleanName)%Z ->
  In (key, ticker) tickerDict ->
  cleanPure (Some key) = Some cleanKey ->
  (2 <= length (Str.split cleanKey))%nat ->
  Str.toUpperCase cleanName = Scorer.acronymOf (Str.split cleanKey) ->
  exists k, In (k, fst (findTicker (Some companyName) tickerDict st)) tickerDict.
Proof.
  intros Hreach Hs Hc Hone Hlen Hin Hkey Hwords Hac.
  destruct (findTicker_run (Some companyName) tickerDict st
              (reachableFor_ok _ _ Hreach)) as (st' & E & _).
  rewrite E. cbn [fst]. unfold resolve. rewrite Hs, Hc.
  replace (Str.isEmpty cleanName || (Str.len cleanName <=? 2)%Z) with false.
  2:{ symmetry. apply orb_false_iff. split; [|apply Z.leb_gt; lia].
      destruct cleanName; [vm_compute in Hlen; contradiction Hlen; reflexivity | reflexivity]. }
  unfold resolveClean.
  destruct (exactPure cleanName tickerDict) as [t|] eqn:Ex.
  { destruct (exactPure_in _ _ _ Ex) as (k & Hk & _). eauto. }
  rewrite Hone. cbn [length Nat.eqb].
  destruct (if true && (3 <=? Str.len cleanName)%Z
            then directLoop cleanName tickerDict else None) as [t|] eqn:Ed.
  { destruct (true && (3 <=? Str.len cleanName)%Z); [|discriminate Ed].
    destruct (directLoop_in _ _ _ Ed) as (k & Hk & _). eauto. }
  destruct (fuzzyPure cleanName [cleanName] tickerDict (None, 0%Z)) as [b bs] eqn:Ef.
  assert (Hscore : candidateScore cleanName [cleanName] key
                   = Some (Scorer.score cleanName [cleanName] cleanKey)).
  { unfold candidateScore. rewrite Hkey.
    pose proof (split_nonempty_words cleanKey Hwords) as Hne.
    apply isEmpty_false in Hne. rewrite Hne. reflexivity. }
  pose proof (score_acronym_floor cleanName cleanName cleanKey Hwords Hlen Hac) as H95.
  destruct (fuzzyPure_spec _ _ _ _ _ _ _ Ef) as
    [(_ & _ & Hall) | (pre & k2 & t2 & post & Hd & -> & Hs2 & _)].
  { destruct (Hall key ticker _ Hin Hscore); lia. }
  cbn [fst].
  assert (Hk2 : k2 <> "").
  { unfold candidateScore in Hs2.
    destruct (cleanPure (Some k2)) as [ck2|] eqn:Ek2; [|discriminate Hs2].
    exact (cleanPure_key_nonempty k2 ck2 Ek2). }
  apply isEmpty_false in Hk2. cbn [truthy]. rewrite Hk2. cbn [negb].
  assert (Hin2 : In (k2, t2) tickerDict) by (rewrite Hd; apply in_elt).
  destruct (dictGet_in k2 t2 tickerDict Hin2) as (v & Eg & Hv).
  cbn. rewrite Eg. cbn. eauto.
Qed.

Lemma findTicker_acronym_resolved_witness :
  let tickerDict :=
    [ ("Precision Camshafts Ltd", "PRECAM IN EQUITY");
      ("Computer Age Management Services Ltd", "CAMS IN EQUITY") ] in
  exists k, In (k, fst (findTicker (Some "CAMS") tickerDict emptyCaches)) tickerDict.
Proof.
  intros tickerDict.
  apply (findTicker_acronym_resolved emptyCaches "CAMS" tickerDict "cams"
           "Computer Age Management Services Ltd" "CAMS IN EQUITY"
           "computer age management services").
  - apply reach_empty.
  - vm_compute. reflexivity.
  - vm_compute. reflexivity.
  - vm_compute. reflexivity.
  - vm_compute. discriminate.
  - right. left. reflexivity.
  - vm_compute. reflexivity.
  - vm_compute. lia.
  - vm_compute. reflexivity.
Defined.

(** ** The similarity metrics *)

Section DistanceFacts.

Local Open Scope Z_scope.
Import FuzzyMatcher.

Lemma lev_upper x : forall y, lev x y <= Z.max (Z.of_nat (length x)) (Z.of_nat (length y)).
Proof.
  induction x as [|a x IHx]; intros y.
  - rewrite lev_nil_l. cbn [length]. lia.
  - destruct y as [|b y].
    + rewrite lev_nil_r. lia.
    + rewrite lev_cons. specialize (IHx y). cbn [length].
      unfold min3, cost. destruct (Ascii.eqb a b); lia.
Qed.

Lemma lev_lower x : forall y, Z.abs (Z.of_nat (length x) - Z.of_nat (length y)) <= lev x y.
Proof.
  induction x as [|a x IHx]; intros y.
  - rewrite lev_nil_l. cbn [length]. lia.
  - induction y as [|b y IHy].
    + rewrite lev_nil_r. cbn [length]. lia.
    + rewrite lev_cons. pose proof (IHx (b :: y)). pose proof (IHx y).
      cbn [length] in *. unfold min3, cost. destruct (Ascii.eqb a b); lia.
Qed.

Lemma lev_zero x : forall y, lev x y = 0 -> x = y.
Proof.
  induction x as [|a x IHx]; intros y H.
  - rewrite lev_nil_l in H. destruct y; [reflexivity | cbn [length] in H; lia].
  - destruct y as [|b y].
    + rewrite lev_nil_r in H. cbn [length] in H. lia.
    + rewrite lev_cons in H.
      pose proof (lev_nonneg x (b :: y)). pose proof (lev_nonneg (a :: x) y).
      pose proof (lev_nonneg x y). unfold min3, cost in H.
      destruct (Ascii.eqb_spec a b) as [->|]; [|lia].
      f_equal. apply IHx. lia.
Qed.

Lemma revOnto_rev s : forall acc,
  revOnto s acc = (rev (list_ascii_of_string s) ++ acc)%list.
Proof.
  induction s as [|c r IH]; intros acc; [reflexivity|].
  cbn [revOnto list_ascii_of_string rev]. rewrite IH, <- app_assoc. reflexivity.
Qed.

Lemma revOnto_length s : length (revOnto s []) = String.length s.
Proof.
  rewrite revOnto_rev, app_nil_r, length_rev.
  induction s as [|c r IH]; [reflexivity|]. cbn. rewrite IH. reflexivity.
Qed.

Lemma revOnto_inj s t : revOnto s [] = revOnto t [] -> s = t.
Proof.
  rewrite !revOnto_rev, !app_nil_r. intros H.
  apply (f_equal (@rev ascii)) in H. rewrite !rev_involutive in H.
  rewrite <- (string_of_list_ascii_of_string s), <- (string_of_list_ascii_of_string t), H.
  reflexivity.
Qed.

Lemma distance_le_max s1 s2 : distance s1 s2 <= Z.max (Str.len s1) (Str.len s2).
Proof.
  rewrite distance_lev. unfold Str.len.
  rewrite <- (revOnto_length s1), <- (revOnto_length s2). apply lev_upper.
Qed.

Lemma distance_nonneg s1 s2 : 0 <= distance s1 s2.
Proof. rewrite distance_lev. apply lev_nonneg. Qed.

(** X12: the distance that [ratio] reads from its matrix is 0 exactly
    between equal strings, and lies between the difference of the two
    lengths and the larger of them. *)
Theorem distance_bounds s1 s2 :
  Z.abs (Str.len s1 - Str.len s2) <= distance s1 s2 <= Z.max (Str.len s1) (Str.len s2)
  /\ (distance s1 s2 = 0 <-> s1 = s2).
Proof.
  rewrite distance_lev. unfold Str.len. rewrite <- (revOnto_length s1), <- (revOnto_length s2).
  split; [split; [apply lev_lower | apply lev_upper]|].
  split.
  - intros H. apply revOnto_inj, lev_zero, H.
  - intros ->. apply lev_refl.
Qed.

End DistanceFacts.

Section RatioSign.

Local Open Scope Z_scope.
Import Float64.

Lemma binary_round_aux_sign sx mx ex lx :
  match binary_round_aux prec emax sx mx ex lx with
  | S754_finite s _ _ => s = sx
  | _ => True
  end.
Proof.
  unfold binary_round_aux.
  destruct (shr_fexp prec emax mx ex lx) as [mrs' e'].
  destruct (shr_fexp prec emax _ e' loc_Exact) as [mrs'' e''].
  destruct (shr_m mrs''); [exact I| |exact I].
  destruct (e'' <=? emax - prec); [reflexivity | exact I].
Qed.

Lemma ofZ_signClear n : 0 <= n -> signClear (ofZ n).
Proof.
  intros H. destruct n as [|p|p]; [exact I| |lia].
  unfold ofZ, binary_normalize, binary_round.
  destruct (shl_align p 0 _) as [mz ez].
  exact (binary_round_aux_sign false (Zpos mz) ez loc_Exact).
Qed.

Lemma div_signClear x y : signClear x -> signClear y -> signClear (div x y).
Proof.
  destruct x as [sx|sx| |sx mx ex], y as [sy|sy| |sy my ey]; try exact (fun _ _ => I).
  cbn [signClear]. intros -> ->. unfold div, SFdiv.
  destruct (SFdiv_core_binary prec emax (Zpos mx) ex (Zpos my) ey) as [[mz ez] lz].
  exact (binary_round_aux_sign false mz ez lz).
Qed.

Lemma mul_signClear x y : signClear x -> signClear y -> signClear (mul x y).
Proof.
  destruct x as [sx|sx| |sx mx ex], y as [sy|sy| |sy my ey]; try exact (fun _ _ => I).
  cbn [signClear]. intros -> ->. unfold mul, SFmul.
  exact (binary_round_aux_sign false _ _ _).
Qed.

Lemma round_signClear x : signClear x -> 0 <= round x.
Proof.
  destruct x as [s|s| |s m e]; cbn [round signClear]; try lia.
  intros ->. destruct (0 <=? e) eqn:E.
  - apply Z.leb_le in E. apply Z.mul_nonneg_nonneg; [lia | apply Z.pow_nonneg; lia].
  - apply Z.leb_gt in E. apply Z.div_pos; [|apply Z.pow_pos_nonneg; lia].
    pose proof (Z.pow_pos_nonneg 2 (- e)). lia.
Qed.

Lemma percent_nonneg d n : 0 <= d <= n -> 0 <= FuzzyMatcher.percent d n.
Proof.
  intros H. unfold FuzzyMatcher.percent.
  apply round_signClear, mul_signClear; [apply div_signClear|];
    apply ofZ_signClear; lia.
Qed.

Lemma ratio_nonneg s1 s2 : 0 <= FuzzyMatcher.ratio s1 s2.
Proof.
  unfold FuzzyMatcher.ratio.
  destruct (Str.isEmpty s1 || Str.isEmpty s2); [lia|].
  apply percent_nonneg. pose proof (distance_le_max s1 s2).
  pose proof (distance_nonneg s1 s2). lia.
Qed.

Lemma ratio_sym s1 s2 : FuzzyMatcher.ratio s1 s2 = FuzzyMatcher.ratio s2 s1.
Proof.
  unfold FuzzyMatcher.ratio.
  rewrite (orb_comm (Str.isEmpty s1)), (distance_sym s1 s2), (Z.max_comm (Str.len s1)).
  reflexivity.
Qed.

Lemma fold_max_nonneg {A} (f : A -> Z) l : forall acc,
  0 <= acc -> 0 <= fold_left (fun best i => Z.max best (f i)) l acc.
Proof.
  induction l as [|x l IH]; intros acc H; cbn [fold_left]; [exact H|].
  apply IH. lia.
Qed.

Lemma substring_all s : String.substring 0 (String.length s) s = s.
Proof. induction s as [|c r IH]; [reflexivity|]. cbn. rewrite IH. reflexivity. Qed.

(** X13: [partialRatio] does not depend on the order of its arguments, and
    for two strings of the same length it is their [ratio]. *)
Theorem partialRatio_symmetric s1 s2 :
  FuzzyMatcher.partialRatio s1 s2 = FuzzyMatcher.partialRatio s2 s1
  /\ (String.length s1 = String.length s2 ->
      FuzzyMatcher.partialRatio s1 s2 = FuzzyMatcher.ratio s1 s2).
Proof.
  assert (Heq : String.length s1 = String.length s2 ->
                FuzzyMatcher.partialRatio s1 s2 = FuzzyMatcher.ratio s1 s2).
  { intros H. unfold FuzzyMatcher.partialRatio.
    destruct (Str.isEmpty s1 || Str.isEmpty s2) eqn:E.
    - unfold FuzzyMatcher.ratio. rewrite E. reflexivity.
    - rewrite H, Nat.leb_refl, Nat.ltb_irrefl, ?H, Nat.sub_diag. cbn [seq fold_left].
      unfold Str.substr. rewrite substring_all.
      pose proof (ratio_nonneg s1 s2). lia. }
  split; [|exact Heq].
  destruct (Nat.lt_trichotomy (String.length s1) (String.length s2)) as [H | [H | H]].
  - unfold FuzzyMatcher.partialRatio. rewrite (orb_comm (Str.isEmpty s2)).
    destruct (Str.isEmpty s1 || Str.isEmpty s2); [reflexivity|].
    replace (String.length s1 <=? String.length s2)%nat with true
      by (symmetry; apply Nat.leb_le; lia).
    replace (String.length s2 <? String.length s1)%nat with false
      by (symmetry; apply Nat.ltb_ge; lia).
    replace (String.length s2 <=? String.length s1)%nat with false
      by (symmetry; apply Nat.leb_gt; lia).
    replace (String.length s1 <? String.length s2)%nat with true
      by (symmetry; apply Nat.ltb_lt; lia).
    reflexivity.
  - rewrite (Heq H). assert (H' : String.length s2 = String.length s1) by lia.
    unfold FuzzyMatcher.partialRatio.
    destruct (Str.isEmpty s2 || Str.isEmpty s1) eqn:E.
    + unfold FuzzyMatcher.ratio. rewrite orb_comm in E. rewrite E. reflexivity.
    + rewrite H', Nat.leb_refl, Nat.ltb_irrefl, ?H', Nat.sub_diag. cbn [seq fold_left].
      unfold Str.substr. rewrite substring_all, (ratio_sym s2 s1).
      pose proof (ratio_nonneg s1 s2). lia.
  - unfold FuzzyMatcher.partialRatio. rewrite (orb_comm (Str.isEmpty s2)).
    destruct (Str.isEmpty s1 || Str.isEmpty s2); [reflexivity|].
    replace (String.length s1 <=? String.length s2)%nat with false
      by (symmetry; apply Nat.leb_gt; lia).
    replace (String.length s2 <? String.length s1)%nat with true
      by (symmetry; apply Nat.ltb_lt; lia).
    replace (String.length s2 <=? String.length s1)%nat with true
      by (symmetry; apply Nat.leb_le; lia).
    replace (String.length s1 <? String.length s2)%nat with false
      by (symmetry; apply Nat.ltb_ge; lia).
    reflexivity.
Qed.

Lemma partialRatio_symmetric_witness :
  FuzzyMatcher.partialRatio "kitten" "sittin" = FuzzyMatcher.ratio "kitten" "sittin".
Proof. apply partialRatio_symmetric. reflexivity. Defined.

End RatioSign.

(** ** Sorting, and the metrics on words *)

Lemma insertSorted_perm x l : Str.insertSorted x l ≡ₚ x :: l.
Proof.
  induction l as [|y r IH]; cbn [Str.insertSorted]; [reflexivity|].
  destruct (String.leb x y); [reflexivity|].
  rewrite IH. apply Permutation_swap.
Qed.

Lemma sort_perm l : Str.sort l ≡ₚ l.
Proof.
  induction l as [|x l IH]; [reflexivity|].
  cbn [Str.sort fold_right]. fold (Str.sort l).
  rewrite insertSorted_perm, IH. reflexivity.
Qed.

Lemma insertSorted_sorted x l :
  Sorted String.le l -> Sorted String.le (Str.insertSorted x l).
Proof.
  induction l as [|y r IH]; intros Hl; cbn [Str.insertSorted].
  - repeat constructor.
  - destruct (String.leb x y) eqn:E.
    + constructor; [exact Hl|]. constructor. unfold String.le. rewrite E. exact I.
    + apply Sorted_inv in Hl as [Hr Hy]. constructor; [exact (IH Hr)|].
      assert (Hyx : String.le y x).
      { destruct (String.leb_total x y) as [H | H]; [congruence|].
        unfold String.le. rewrite H. exact I. }
      destruct r as [|z r']; cbn [Str.insertSorted].
      * constructor. exact Hyx.
      * destruct (String.leb x z); constructor; [exact Hyx|].
        apply HdRel_inv in Hy. exact Hy.
Qed.

Lemma sort_sorted l : Sorted String.le (Str.sort l).
Proof.
  induction l as [|x l IH]; [constructor|].
  cbn [Str.sort fold_right]. apply insertSorted_sorted, IH.
Qed.

(** The sorted array is the same for every order of the elements. *)
Lemma sort_of_perm l1 l2 : l1 ≡ₚ l2 -> Str.sort l1 = Str.sort l2.
Proof.
  intros H. apply (Sorted_unique String.le); try apply sort_sorted.
  rewrite !sort_perm. exact H.
Qed.

(** X14: the key of the resolution cache does not depend on the order of
    the entries of the mapping. *)
Theorem cacheKeyOf_ignores_order cleanName tickerDict otherDict :
  tickerDict ≡ₚ otherDict ->
  cacheKeyOf cleanName tickerDict = cacheKeyOf cleanName otherDict.
Proof.
  intros H. unfold cacheKeyOf.
  rewrite (sort_of_perm (List.map fst tickerDict) (List.map fst otherDict));
    [reflexivity|].
  apply Permutation_map, H.
Qed.

Lemma cacheKeyOf_ignores_order_witness :
  cacheKeyOf "acme" [("Acme Ltd", "A"); ("Zeta Corp", "Z")]
  = cacheKeyOf "acme" [("Zeta Corp", "Z"); ("Acme Ltd", "A")].
Proof. apply cacheKeyOf_ignores_order. apply Permutation_swap. Defined.

(** X15: [tokenSortRatio] is symmetric, and it does not depend on the order
    of the words of its first argument. *)
Theorem tokenSortRatio_ignores_word_order :
  (forall s1 s2,
     FuzzyMatcher.tokenSortRatio s1 s2 = FuzzyMatcher.tokenSortRatio s2 s1)
  /\ (forall s1 s1' s2,
        s1 <> "" -> s1' <> "" ->
        Str.split s1 ≡ₚ Str.split s1' ->
        FuzzyMatcher.tokenSortRatio s1 s2 = FuzzyMatcher.tokenSortRatio s1' s2).
Proof.
  split.
  - intros s1 s2. unfold FuzzyMatcher.tokenSortRatio.
    rewrite (orb_comm (Str.isEmpty s1)).
    destruct (Str.isEmpty s2 || Str.isEmpty s1); [reflexivity | apply ratio_sym].
  - intros s1 s1' s2 H1 H1' Hp. unfold FuzzyMatcher.tokenSortRatio.
    apply isEmpty_false in H1, H1'. rewrite H1, H1'.
    rewrite (sort_of_perm _ _ Hp). reflexivity.
Qed.

Lemma tokenSortRatio_ignores_word_order_witness :
  FuzzyMatcher.tokenSortRatio "birla aditya capital" "aditya birla cap"
  = FuzzyMatcher.tokenSortRatio "aditya birla capital" "aditya birla cap".
Proof.
  apply tokenSortRatio_ignores_word_order; [discriminate | discriminate|].
  vm_compute Str.split. apply Permutation_swap.
Defined.

(** *** The token sets *)

Lemma member_In x l : Str.member x l = true <-> In x l.
Proof.
  unfold Str.member. rewrite existsb_exists. split.
  - intros (y & Hy & E). apply String.eqb_eq in E. subst y. exact Hy.
  - intros H. exists x. split; [exact H | apply String.eqb_refl].
Qed.

Lemma unique_spec l : forall seen,
  List.NoDup (Str.unique seen l)
  /\ forall x, In x (Str.unique seen l) <-> In x l /\ ~ In x seen.
Proof.
  induction l as [|y l IH]; intros seen; cbn [Str.unique].
  - split; [apply List.NoDup_nil|]. intros x. cbn. tauto.
  - destruct (Str.member y seen) eqn:E.
    + apply member_In in E. destruct (IH seen) as [Hn Hi]. split; [exact Hn|].
      intros x. rewrite Hi. cbn [In]. split; [tauto|].
      intros [[<- | H] Hx]; [contradiction | tauto].
    + assert (Hy : ~ In y seen) by (rewrite <- member_In, E; discriminate).
      destruct (IH (y :: seen)) as [Hn Hi]. split.
      * apply List.NoDup_cons; [|exact Hn]. rewrite Hi. cbn [In]. tauto.
      * intros x. cbn [In]. rewrite Hi. cbn [In].
        destruct (String.string_dec y x) as [->|]; tauto.
Qed.

Lemma intersection_perm t1 t2 :
  List.NoDup t1 -> List.NoDup t2 ->
  List.filter (fun x => Str.member x t2) t1 ≡ₚ List.filter (fun x => Str.member x t1) t2.
Proof.
  intros H1 H2. apply Stdlib.Sorting.Permutation.NoDup_Permutation.
  - apply List.NoDup_filter, H1.
  - apply List.NoDup_filter, H2.
  - intros x. rewrite !filter_In, !member_In. tauto.
Qed.

(** X16: [tokenSetRatio] does not depend on the order of its arguments. *)
Theorem tokenSetRatio_symmetric s1 s2 :
  FuzzyMatcher.tokenSetRatio s1 s2 = FuzzyMatcher.tokenSetRatio s2 s1.
Proof.
  unfold FuzzyMatcher.tokenSetRatio. rewrite (orb_comm (Str.isEmpty s1)).
  destruct (Str.isEmpty s2 || Str.isEmpty s1); [reflexivity|].
  destruct (unique_spec (Str.split s1) []) as [H1 _].
  destruct (unique_spec (Str.split s2) []) as [H2 _].
  rewrite (sort_of_perm _ _ (intersection_perm _ _ H1 H2)).
  apply ratio_sym.
Qed.

(** ** Cache keys and the test script *)

(** X17: two keys of the resolution cache are equal only for the same
    cleaned name and the same set of full names. *)
Theorem cacheKeyOf_tells_apart name1 name2 cn1 cn2 d1 d2 :
  cleanPure name1 = Some cn1 ->
  cleanPure name2 = Some cn2 ->
  cacheKeyOf cn1 d1 = cacheKeyOf cn2 d2 ->
  cn1 = cn2 /\ sortedNames d1 = sortedNames d2.
Proof.
  intros H1 H2. apply cacheKeyOf_inj2; eapply cleanPure_normal; eassumption.
Qed.

Lemma cacheKeyOf_tells_apart_witness :
  "acme" = "acme"
  /\ sortedNames [("Acme Ltd", "A"); ("Zeta Corp", "Z")]
     = sortedNames [("Zeta Corp", "Z2"); ("Acme Ltd", "A2")].
Proof.
  apply (cacheKeyOf_tells_apart (Some "ACME Ltd") (Some "Acme Inc.")).
  - vm_compute. reflexivity.
  - vm_compute. reflexivity.
  - vm_compute. reflexivity.
Defined.

(** X18: [matchedWords] is the number of input words that one of the three
    tests of the word loop matches. *)
Theorem matchedWords_counts_matches inputWords keyWords :
  fst (Scorer.wordOverlap inputWords keyWords)
  = Z.of_nat (length (List.filter (wordMatched keyWords) inputWords)).
Proof. apply wordOverlap_matched. Qed.

Lemma runTests_run cases : forall passed st,
  reachableFor sampleTickerDict st ->
  fst (runTests cases passed st)
  = fold_left
      (fun p testCase =>
         if bool_decide (Some (resolve (Some testCase) sampleTickerDict)
                         = dictGet testCase expectedResults)
         then (p + 1)%Z else p)
      cases passed.
Proof.
  induction cases as [|c rest IH]; intros passed st Hreach; [reflexivity|].
  cbn [runTests fold_left]. unfold mbind, M_bind.
  pose proof (reach_same sampleTickerDict (Some c) st Hreach) as Hnext.
  destruct (findTicker_run (Some c) sampleTickerDict st (reachableFor_ok _ _ Hreach))
    as (st' & E & _).
  rewrite E in Hnext |- *. cbn [snd] in Hnext. exact (IH _ st' Hnext).
Qed.

(** X19: the test script passes: all 9 cases get the expected identifier,
    from the empty caches and from any caches reached without resolving
    over another mapping with the full names of the sample. *)
Theorem runTests_all_pass st :
  reachableFor sampleTickerDict st ->
  fst (runTests testCases 0%Z st) = Z.of_nat (length testCases).
Proof.
  intros Hreach. rewrite (runTests_run testCases 0%Z st Hreach).
  vm_compute. reflexivity.
Qed.

Lemma runTests_all_pass_witness :
  fst (runTests testCases 0%Z
         (snd (findTicker (Some "Apar") [("Apar Industries Ltd", "X")] emptyCaches)))
  = 9%Z.
Proof.
  apply runTests_all_pass. apply reach_other; [apply reach_empty|].
  vm_compute. discriminate.
Defined.

(** ** The range of the metrics *)

Section RatioRange.

Local Open Scope Z_scope.
Import Float64.

Lemma iter_pos_iter {A} (f : A -> A) p : forall x, SpecFloat.iter_pos f p x = Pos.iter f x p.
Proof.
  induction p as [p IH|p IH|]; intros x; cbn [SpecFloat.iter_pos Pos.iter].
  - rewrite !IH, <- !Pos.iter_swap. reflexivity.
  - rewrite !IH. reflexivity.
  - reflexivity.
Qed.

Lemma shr_1_atMost T mrs e :
  e < 0 -> shrAtMost T mrs e -> shrAtMost T (shr_1 mrs) (e + 1).
Proof.
  intros He (Hm & Hle & Hin).
  assert (HB : T * 2 ^ (- e) = 2 * (T * 2 ^ (- (e + 1)))).
  { replace (- e) with (- (e + 1) + 1) by lia.
    rewrite Z.pow_add_r by lia. change (2 ^ 1) with 2. lia. }
  set (B' := T * 2 ^ (- (e + 1))) in *. rewrite HB in Hle, Hin.
  destruct mrs as [m r s]. cbn [shr_m shr_r shr_s] in *.
  unfold shrAtMost.
  destruct m as [|[p|p|]|p]; cbn [shr_1 shr_m shr_r shr_s]; try lia;
    try pose proof (Pos2Z.inj_xI p) as Hp; try pose proof (Pos2Z.inj_xO p) as Hp';
    (split; [lia|]; split; [lia|]); intros Hb;
    destruct r, s; cbn [orb] in *; try discriminate Hb;
    try (specialize (Hin eq_refl)); lia.
Qed.

Lemma shr_iter_atMost T p : forall mrs e,
  e + Zpos p <= 0 -> shrAtMost T mrs e ->
  shrAtMost T (Pos.iter shr_1 mrs p) (e + Zpos p).
Proof.
  induction p as [|p IH] using Pos.peano_ind; intros mrs e He H.
  - cbn [Pos.iter]. apply shr_1_atMost; [lia | exact H].
  - rewrite Pos.iter_succ, Pos2Z.inj_succ.
    replace (e + Z.succ (Zpos p)) with (e + Zpos p + 1) by lia.
    apply shr_1_atMost; [lia|]. apply IH; [lia | exact H].
Qed.

Lemma shr_atMost T mrs e n :
  e <= 0 -> e + n <= 0 -> shrAtMost T mrs e ->
  shrAtMost T (fst (shr mrs e n)) (snd (shr mrs e n)) /\ snd (shr mrs e n) <= 0.
Proof.
  intros He Hn H. unfold shr. destruct n as [|p|p]; cbn [fst snd]; auto.
  rewrite iter_pos_iter. split; [apply shr_iter_atMost; assumption | lia].
Qed.

(** The canonical exponent of a mantissa below [2^(52 - e)] is not
    positive. *)
Lemma fexp_nonpos m e :
  0 <= m -> e <= 0 -> m <= 2 ^ (52 - e) -> fexp prec emax (Zdigits2 m + e) <= 0.
Proof.
  intros Hm He Hle. unfold fexp, emin, prec, emax.
  destruct m as [|p|p]; cbn [Zdigits2]; [lia| |lia].
  rewrite digits2_size. pose proof (Pos.size_le p) as Hs.
  assert (Hpow : Zpos (2 ^ Pos.size p) = 2 ^ Zpos (Pos.size p)) by apply Pos2Z.inj_pow.
  assert (Hs' : 2 ^ Zpos (Pos.size p) <= 2 * Zpos p) by (rewrite <- Hpow; exact Hs).
  assert (Hlt : 2 ^ Zpos (Pos.size p) <= 2 ^ (53 - e)).
  { replace (53 - e) with (52 - e + 1) by lia. rewrite (Z.pow_add_r 2 (52 - e) 1) by lia.
    change (2 ^ 1) with 2. lia. }
  apply Z.pow_le_mono_r_iff in Hlt; lia.
Qed.

Lemma shr_fexp_atMost T m e l :
  0 < T <= 2 ^ 52 -> 0 <= m -> e <= 0 ->
  shrAtMost T (shr_record_of_loc m l) e ->
  shrAtMost T (fst (shr_fexp prec emax m e l)) (snd (shr_fexp prec emax m e l))
  /\ snd (shr_fexp prec emax m e l) <= 0.
Proof.
  intros HT Hm He H. unfold shr_fexp. apply shr_atMost; [exact He| |exact H].
  assert (Hle : m <= 2 ^ (52 - e)).
  { destruct H as (_ & Hle & _).
    replace (shr_m (shr_record_of_loc m l)) with m in Hle
      by (destruct l as [|[]]; reflexivity).
    replace (52 - e) with (52 + - e) by lia. rewrite Z.pow_add_r by lia.
    pose proof (Z.pow_pos_nonneg 2 (- e)). nia. }
  pose proof (fexp_nonpos m e Hm He Hle). lia.
Qed.

Lemma round_nearest_even_atMost T mrs e :
  shrAtMost T mrs e ->
  0 <= round_nearest_even (shr_m mrs) (loc_of_shr_record mrs) <= T * 2 ^ (- e).
Proof.
  intros (Hm & Hle & Hin). destruct mrs as [m r s]. cbn [shr_m shr_r shr_s] in *.
  destruct r, s; cbn [loc_of_shr_record round_nearest_even orb] in *;
    try destruct (Z.even m); lia.
Qed.

(** Rounding a number that is at most [T] gives one that is at most [T]. *)
Lemma binary_round_aux_atMost T m e l :
  0 < T <= 2 ^ 52 -> 0 <= m -> e <= 0 ->
  m <= T * 2 ^ (- e) ->
  (l <> loc_Exact -> m + 1 <= T * 2 ^ (- e)) ->
  atMost T (binary_round_aux prec emax false m e l).
Proof.
  intros HT Hm He Hle Hin. unfold binary_round_aux.
  assert (H0 : shrAtMost T (shr_record_of_loc m l) e).
  { destruct l as [|[]]; cbn [shr_record_of_loc]; repeat split;
      cbn [shr_m shr_r shr_s orb]; try lia; intros _; apply Hin; discriminate. }
  destruct (shr_fexp_atMost T m e l HT Hm He H0) as [H1 He1].
  destruct (shr_fexp prec emax m e l) as [mrs' e']. cbn [fst snd] in H1, He1.
  pose proof (round_nearest_even_atMost T mrs' e' H1) as [Hm2 Hle2].
  set (m2 := round_nearest_even (shr_m mrs') (loc_of_shr_record mrs')) in *.
  assert (H2 : shrAtMost T (shr_record_of_loc m2 loc_Exact) e').
  { repeat split; cbn [shr_record_of_loc shr_m shr_r shr_s orb]; try lia; discriminate. }
  destruct (shr_fexp_atMost T m2 e' loc_Exact HT Hm2 He1 H2) as [H3 He3].
  destruct (shr_fexp prec emax m2 e' loc_Exact) as [mrs'' e'']. cbn [fst snd] in H3, He3.
  destruct H3 as (Hm3 & Hle3 & _).
  destruct (shr_m mrs'') as [|p|p]; [exact I| |lia].
  replace (e'' <=? emax - prec) with true by (symmetry; apply Z.leb_le; unfold emax, prec; lia).
  split; assumption.
Qed.

Lemma substring_length_le i n s :
  (String.length (String.substring i n s) <= n)%nat.
Proof.
  revert i n. induction s as [|c r IH]; intros i n.
  - destruct i, n; cbn; lia.
  - destruct i as [|i]; [destruct n as [|n]|]; cbn [String.substring String.length].
    + lia.
    + pose proof (IH 0%nat n). lia.
    + apply IH.
Qed.

Lemma pos_iter_xO p k : Zpos (Pos.iter xO p k) = Zpos p * 2 ^ Zpos k.
Proof.
  induction k as [|k IH] using Pos.peano_ind.
  - cbn [Pos.iter]. lia.
  - rewrite Pos.iter_succ, Pos2Z.inj_xO, IH, Pos2Z.inj_succ, Z.pow_succ_r by lia. lia.
Qed.

(** The Number of a positive integer below [2^53], with its value. *)
Lemma ofZ_value n :
  0 < n < 2 ^ 53 ->
  exists m e, ofZ n = S754_finite false m e /\ -52 <= e <= 0
    /\ Zpos m = n * 2 ^ (- e) /\ Zpos (digits2_pos m) = 53.
Proof.
  intros [Hpos Hlt]. destruct n as [|p|p]; try lia.
  pose proof (digits2_bound p Hlt) as Hd.
  unfold ofZ, binary_normalize, binary_round.
  assert (Hf : fexp prec emax (Zpos (digits2_pos p) + 0) = Zpos (digits2_pos p) - 53)
    by (unfold fexp, emin, prec, emax; lia).
  rewrite Hf. unfold shl_align.
  destruct (Zpos (digits2_pos p) - 53 - 0) as [|k|k] eqn:Ek; try lia.
  - exists p, 0. split; [|split; [lia | split; [cbn; lia | lia]]].
    apply binary_round_aux_canonical; [|unfold emax, prec; lia]. rewrite Hf. lia.
  - exists (Pos.iter xO p k), (Zpos (digits2_pos p) - 53).
    split; [|split; [lia | split]].
    + apply binary_round_aux_canonical; [|unfold emax, prec; lia].
      rewrite digits2_iter. unfold fexp, emin, prec, emax. lia.
    + rewrite pos_iter_xO. f_equal. f_equal. lia.
    + rewrite digits2_iter. lia.
Qed.

(** The quotient of two integers [0 < k < n < 2^53] is at most 1. *)
Lemma div_atMost_one k n :
  0 < k -> k < n -> n < 2 ^ 53 -> atMost 1 (div (ofZ k) (ofZ n)).
Proof.
  intros Hk Hkn Hn.
  destruct (ofZ_value k ltac:(lia)) as (mk & ek & -> & Hek & Hmk & Hdk).
  destruct (ofZ_value n ltac:(lia)) as (mn & en & -> & Hen & Hmn & Hdn).
  unfold div, SFdiv, SFdiv_core_binary. cbn [Zdigits2 xorb].
  rewrite Hdk, Hdn.
  replace (53 + ek - (53 + en)) with (ek - en) by lia.
  assert (He' : Z.min (fexp prec emax (ek - en)) (ek - en) = ek - en - 53)
    by (unfold fexp, emin, prec, emax; lia).
  rewrite He'. replace (ek - en - (ek - en - 53)) with 53 by lia.
  rewrite Z.shiftl_mul_pow2 by lia.
  pose proof (Z.div_eucl_eq (Zpos mk * 2 ^ 53) (Zpos mn) ltac:(lia)) as Hq.
  pose proof (Z.mod_pos_bound (Zpos mk * 2 ^ 53) (Zpos mn) ltac:(lia)) as Hr.
  unfold Z.modulo in Hr.
  destruct (Z.div_eucl (Zpos mk * 2 ^ 53) (Zpos mn)) as [q r].
  assert (Hq0 : 0 <= q) by nia.
  assert (Hpow : 2 ^ (- ek) * 2 ^ 53 = 2 ^ (- en) * 2 ^ (- (ek - en - 53))).
  { rewrite <- !Z.pow_add_r by lia. f_equal. lia. }
  assert (Hlt : q < 2 ^ (- (ek - en - 53))).
  { apply (Z.mul_lt_mono_pos_l (Zpos mn)); [lia|].
    pose proof (Z.pow_pos_nonneg 2 (- (ek - en - 53)) ltac:(lia) ltac:(lia)).
    pose proof (Z.pow_pos_nonneg 2 (- en) ltac:(lia) ltac:(lia)).
    rewrite Hmn. rewrite Hmk in Hq.
    assert (k * 2 ^ (- ek) * 2 ^ 53 = k * (2 ^ (- en) * 2 ^ (- (ek - en - 53))))
      by (rewrite <- Hpow; lia).
    nia. }
  apply binary_round_aux_atMost; lia.
Qed.

(** The percentage [(k / n) * 100] of [0 <= k <= n < 2^53] is at most 100. *)
Lemma mul_hundred_atMost x : atMost 1 x -> atMost 100 (mul x (ofZ 100)).
Proof.
  change (ofZ 100) with (S754_finite false 7036874417766400 (-46)).
  destruct x as [s|s| |[|] m e]; cbn [atMost]; try contradiction; [intros _; exact I|].
  intros [He Hm]. unfold mul, SFmul. cbn [xorb].
  apply binary_round_aux_atMost; try lia.
  - replace (- (e + -46)) with (- e + 46) by lia. rewrite Z.pow_add_r by lia.
    change (2 ^ 46) with 70368744177664. rewrite Pos2Z.inj_mul.
    pose proof (Z.pow_pos_nonneg 2 (- e) ltac:(lia) ltac:(lia)). nia.
  - intros H. contradiction H. reflexivity.
Qed.

Lemma round_atMost x : atMost 100 x -> round x <= 100.
Proof.
  destruct x as [s|s| |[|] m e]; cbn [atMost round]; try contradiction; [lia|].
  intros [He Hm]. destruct (0 <=? e) eqn:E.
  - apply Z.leb_le in E. assert (e = 0) by lia. subst e. cbn in Hm |- *. lia.
  - pose proof (Z.pow_pos_nonneg 2 (- e) ltac:(lia) ltac:(lia)) as Hp.
    replace (1 - e) with (- e + 1) by lia. rewrite Z.pow_add_r by lia.
    change (2 ^ 1) with 2.
    assert ((2 * Zpos m + 2 ^ (- e)) / (2 ^ (- e) * 2) < 101); [|lia].
    apply Z.div_lt_upper_bound; lia.
Qed.

Lemma percent_atMost d n :
  0 <= d <= n -> 0 < n < 2 ^ 53 -> FuzzyMatcher.percent d n <= 100.
Proof.
  intros Hd Hn. unfold FuzzyMatcher.percent.
  destruct (Z.eq_dec d 0) as [->|Hd0].
  { pose proof (percent_full n Hn) as H. unfold FuzzyMatcher.percent in H.
    rewrite H. lia. }
  destruct (Z.eq_dec d n) as [->|Hdn].
  { rewrite Z.sub_diag. destruct (ofZ_value n Hn) as (m & e & -> & _).
    vm_compute. discriminate. }
  apply round_atMost, mul_hundred_atMost, div_atMost_one; lia.
Qed.

(** X20: [ratio] and [partialRatio] are percentages: for strings of fewer
    than [2^53] code units they lie between 0 and 100. *)
Theorem ratio_range s1 s2 :
  Str.len s1 < 2 ^ 53 -> Str.len s2 < 2 ^ 53 ->
  0 <= FuzzyMatcher.ratio s1 s2 <= 100
  /\ 0 <= FuzzyMatcher.partialRatio s1 s2 <= 100.
Proof.
  intros H1 H2.
  assert (Hratio : forall a b, Str.len a < 2 ^ 53 -> Str.len b < 2 ^ 53 ->
                     FuzzyMatcher.ratio a b <= 100).
  { intros a b Ha Hb. unfold FuzzyMatcher.ratio.
    destruct (Str.isEmpty a || Str.isEmpty b) eqn:E; [lia|].
    apply orb_false_iff in E as [Ea _]. apply percent_atMost.
    - pose proof (distance_le_max a b). pose proof (distance_nonneg a b). lia.
    - destruct a; [discriminate Ea|]. unfold Str.len in *. cbn [String.length] in *. lia. }
  split; [split; [apply ratio_nonneg | apply Hratio; assumption]|].
  unfold FuzzyMatcher.partialRatio.
  destruct (Str.isEmpty s1 || Str.isEmpty s2); [lia|].
  set (shorter := if (String.length s1 <=? String.length s2)%nat then s1 else s2).
  set (longer := if (String.length s2 <? String.length s1)%nat then s1 else s2).
  assert (Hs : Str.len shorter < 2 ^ 53) by (unfold shorter; destruct (_ <=? _)%nat; assumption).
  assert (Hfold : forall l acc, 0 <= acc <= 100 ->
    0 <= fold_left (fun bestRatio i =>
           Z.max bestRatio
             (FuzzyMatcher.ratio shorter (Str.substr longer i (String.length shorter))))
         l acc <= 100).
  { induction l as [|i l IH]; intros acc Hacc; cbn [fold_left]; [exact Hacc|].
    apply IH.
    pose proof (ratio_nonneg shorter (Str.substr longer i (String.length shorter))).
    assert (Hsub : Str.len (Str.substr longer i (String.length shorter)) < 2 ^ 53).
    { unfold Str.len, Str.substr in *.
      pose proof (substring_length_le i (String.length shorter) longer). lia. }
    pose proof (Hratio shorter _ Hs Hsub). lia. }
  apply Hfold. lia.
Qed.

Lemma ratio_range_witness :
  0 <= FuzzyMatcher.ratio "bls internat" "bls international services" <= 100
  /\ 0 <= FuzzyMatcher.partialRatio "bls internat" "bls international services" <= 100.
Proof. apply ratio_range; vm_compute; reflexivity. Defined.

End RatioRange.
